(** * Desktop organizer: classification, collision-free names, and the run

    A shallow embedding of [src/desktop_organizer.py] and the properties of
    its three parts: [get_category] (extension to category),
    [get_unique_filename] (collision-free destination name) and
    [organize_desktop] (the traversal, the moves and the summary).

    Conventions of the embedding:
    - a Python [str] is a [string] (its bytes); [lower] acts on the ASCII
      letters, which is all the configured extensions are made of;
    - the dict [FILE_CATEGORIES] is an association list in insertion order,
      the order in which [.items()] enumerates it;
    - a directory whose entries are only tested for existence is a finite
      set of names; the desktop itself, whose enumeration order matters, is
      an association list from entry name to the kind of the entry;
    - [organize_desktop] threads an explicit state (file system, tally,
      printed lines, log of mutations) and stops at an uncaught exception;
    - of the ways a move can fail, the model has one: a regular file can be
      locked, and [shutil.move] raises for a locked file before anything is
      copied; a file that the system refuses to rename but lets be read, of
      which [shutil.move] leaves a copy behind before it raises, is not
      modelled, and neither is a desktop that refuses the creation of a
      folder. *)

From Stdlib Require Import Ascii String.
From stdpp Require Import base options gmap strings list fin_maps pretty sorting.


(** ** Strings *)

(** [str.lower()] on one character, for the ASCII range. *)
Definition lower_ascii (c : ascii) : ascii :=
  let n := N_of_ascii c in
  if ((65 <=? n) && (n <=? 90))%N then ascii_of_N (n + 32) else c.

(** [str.lower()]. *)
Fixpoint lower (s : string) : string :=
  match s with
  | EmptyString => EmptyString
  | String c s' => String (lower_ascii c) (lower s')
  end.

(** [name.rfind('.')]: the index of the last dot, [None] for Python's -1. *)
Fixpoint rfind_dot (name : string) : option nat :=
  match name with
  | EmptyString => None
  | String c rest =>
      match rfind_dot rest with
      | Some i => Some (S i)
      | None => if Ascii.eqb c "."%char then Some 0 else None
      end
  end.

(** The test [0 < i < len(name) - 1] that pathlib's [suffix] and [stem] share. *)
Definition splits_at (name : string) (i : nat) : bool :=
  (0 <? i) && (S i <? String.length name).

(** [PurePath.suffix] of a one-component path (pathlib of CPython up to 3.13):
    the text from the last dot on, unless that dot is the first or the last
    character of the name. *)
Definition suffix (name : string) : string :=
  match rfind_dot name with
  | Some i =>
      if splits_at name i then String.substring i (String.length name - i) name
      else ""
  | None => ""
  end.

(** [PurePath.stem] of a one-component path: what [suffix] leaves. *)
Definition stem (name : string) : string :=
  match rfind_dot name with
  | Some i => if splits_at name i then String.substring 0 i name else name
  | None => name
  end.

(** [name.startswith('.')]. *)
Definition startswith_dot (name : string) : bool :=
  match name with
  | String c _ => Ascii.eqb c "."%char
  | EmptyString => false
  end.

(** ** Configuration *)

Definition FILE_CATEGORIES : list (string * list string) :=
  [ ("Images", [".jpg"; ".jpeg"; ".png"; ".gif"; ".bmp"; ".svg"; ".ico";
                ".tiff"; ".webp"; ".heic"]);
    ("PDFs", [".pdf"]);
    ("Documents", [".doc"; ".docx"; ".txt"; ".rtf"; ".odt"; ".pages"; ".tex";
                   ".md"; ".csv"; ".xlsx"; ".xls"; ".ppt"; ".pptx"]);
    ("Videos", [".mp4"; ".avi"; ".mov"; ".mkv"; ".flv"; ".wmv"; ".webm"; ".m4v"]);
    ("Music", [".mp3"; ".wav"; ".flac"; ".aac"; ".ogg"; ".wma"; ".m4a"]);
    ("Archives", [".zip"; ".tar"; ".gz"; ".rar"; ".7z"; ".bz2"; ".xz"]);
    ("Others", []) ].

Definition IGNORED_FILES : gset string :=
  {[ ".DS_Store"; ".localized"; "desktop.ini" ]}.

(** The category labels, in the table's order. *)
Definition category_names : list string := FILE_CATEGORIES.*1.

(** ** Classifier *)

(** The [for category, extensions in ....items()] loop of [get_category]:
    the first category whose list holds the extension, [None] when the loop
    falls through. *)
Fixpoint first_category (items : list (string * list string))
    (file_extension : string) : option string :=
  match items with
  | [] => None
  | (category, extensions) :: rest =>
      if bool_decide (file_extension ∈ extensions) then Some category
      else first_category rest file_extension
  end.

(** [get_category] over an arbitrary category table. *)
Definition get_category_in (table : list (string * list string))
    (file_extension : string) : string :=
  let file_extension := lower file_extension in
  default "Others" (first_category table file_extension).

Definition get_category : string → string := get_category_in FILE_CATEGORIES.

(** [c] claims [x] in [table]: some entry of [c] lists [x]. *)
Definition claims (table : list (string * list string)) (c x : string) : Prop :=
  ∃ exts, (c, exts) ∈ table ∧ x ∈ exts.

(** [c] matches the extension [e]: [c] claims the lowercased [e], or [c] is
    the catch-all and no category claims it. *)
Definition matches (table : list (string * list string)) (c e : string) : Prop :=
  claims table c (lower e) ∨ (c = "Others" ∧ ∀ c', ¬ claims table c' (lower e)).

(** The extension lists of a table share no extension. *)
Definition exclusive (table : list (string * list string)) : Prop :=
  NoDup (mjoin table.*2).

(** ** Name resolver *)

(** The f-string [f"{name_stem}({counter}){extension}"]. *)
Definition candidate (name_stem extension : string) (counter : nat) : string :=
  name_stem +:+ "(" +:+ pretty counter +:+ ")" +:+ extension.

(** The [while True] loop of [get_unique_filename], started at [counter]
    and cut after [fuel] candidates ([None] when the fuel runs out). *)
Fixpoint unique_loop (fuel : nat) (target_dir : gset string)
    (name_stem extension : string) (counter : nat) : option string :=
  match fuel with
  | 0 => None
  | S fuel =>
      let new_filename := candidate name_stem extension counter in
      if bool_decide (new_filename ∈ target_dir)
      then unique_loop fuel target_dir name_stem extension (S counter)
      else Some new_filename
  end.

(** [get_unique_filename] with a bound on the number of candidates tried.
    [target_dir] is the set of names that exist under the target directory. *)
Definition get_unique_filename_fuel (fuel : nat) (target_dir : gset string)
    (filename : string) : option string :=
  if bool_decide (filename ∈ target_dir) then
    let name_stem := stem filename in
    let extension := suffix filename in
    unique_loop fuel target_dir name_stem extension 1
  else Some filename.

(** [get_unique_filename]: one candidate more than the directory has entries
    is always enough ([get_unique_filename_enough] below), so the loop is run
    with that bound. *)
Definition get_unique_filename (target_dir : gset string) (filename : string) : string :=
  default filename
    (get_unique_filename_fuel (S (size target_dir)) target_dir filename).

(** ** File system, output and state of a run *)

(** A path, as its components. *)
Abbreviation path := (list string) (only parsing).

(** What an entry of the desktop is: a regular file ([locked] when the
    system refuses to rename it and to read it, so that [shutil.move]
    raises), a directory with the names that [Path.exists] finds in it, or
    something that is neither. *)
Inductive node : Type :=
  | File (locked : bool)
  | Dir (children : gset string)
  | Special.

(** The desktop directory: its entries in the order [iterdir] yields them. *)
Abbreviation desktop := (list (string * node)) (only parsing).

(** The mutating calls the program makes, with the paths they act on. *)
Inductive fsop : Type :=
  | Mkdir (p : path)
  | Move (src dst : path).

(** The exceptions of the model, with the path they are about. *)
Inductive exn : Type :=
  | FileExistsError (p : path)
  | PermissionError (p : path)
  | FileNotFoundError (p : path)
  | NotADirectoryError (p : path).

(** One constructor for each [print] of the program. *)
Inductive line : Type :=
  | ErrorNotFound (desktop_path : path)
  | Organizing (desktop_path : path)
  | Moved (name category unique_filename : string)
  | ErrorMoving (name : string) (e : exn)
  | RuleAfterBlank
  | SummaryTitle
  | Rule
  | NothingMoved
  | CategoryCount (category : string) (count : nat)
  | TotalOrganized (total_files : nat).

Record state : Type := mkState {
  fs : desktop;
  move_count : gmap string nat;
  stdout : list line;
  mutations : list fsop
}.

(** A computation either returns or raises; the state reached is kept in
    both cases. *)
Inductive result (A : Type) : Type :=
  | Ok (a : A) (s : state)
  | Raised (e : exn) (s : state).
Arguments Ok {A} a s.
Arguments Raised {A} e s.

Definition M (A : Type) : Type := state → result A.

Definition ret {A} (a : A) : M A := λ s, Ok a s.

Definition bind {A B} (m : M A) (k : A → M B) : M B := λ s,
  match m s with
  | Ok a s' => k a s'
  | Raised e s' => Raised e s'
  end.

Definition raise {A} (e : exn) : M A := λ s, Raised e s.

(** [try: m except Exception as e: handler e]. *)
Definition try_except {A} (m : M A) (handler : exn → M A) : M A := λ s,
  match m s with
  | Ok a s' => Ok a s'
  | Raised e s' => handler e s'
  end.

(** The monad operations under stdpp's notations [x ← m; k] and [m;; k]. *)
Global Instance M_ret : MRet M := @ret.
Global Instance M_bind : MBind M := λ A B k m, bind m k.

Definition final {A} (r : result A) : state :=
  match r with Ok _ s => s | Raised _ s => s end.

Definition returned {A} (r : result A) : bool :=
  match r with Ok _ _ => true | Raised _ _ => false end.

(** The status of the interpreter's process: 0 when the script runs to its
    end, 1 when it dies of an uncaught exception. *)
Definition exit_status {A} (r : result A) : nat :=
  match r with Ok _ _ => 0 | Raised _ _ => 1 end.

(** *** File-system primitives *)

Fixpoint entry (d : desktop) (name : string) : option node :=
  match d with
  | [] => None
  | (n, k) :: rest => if bool_decide (n = name) then Some k else entry rest name
  end.

Definition remove_entry (name : string) (d : desktop) : desktop :=
  filter (λ e, e.1 ≠ name) d.

(** A directory gains the name [child]; other nodes are left as they are. *)
Definition with_child (child : string) (k : node) : node :=
  match k with
  | Dir ch => Dir ({[child]} ∪ ch)
  | _ => k
  end.

Definition add_child (folder child : string) (d : desktop) : desktop :=
  (λ e : string * node,
     if bool_decide (e.1 = folder) then (e.1, with_child child e.2) else e) <$> d.

(** The names under the desktop's subfolder [folder]. *)
Definition children_of (d : desktop) (folder : string) : gset string :=
  match entry d folder with
  | Some (Dir ch) => ch
  | _ => ∅
  end.

(** [item.is_file()], asked of the live file system. *)
Definition is_file (d : desktop) (name : string) : bool :=
  match entry d name with
  | Some (File _) => true
  | _ => false
  end.

Definition print (l : line) : M unit := λ s,
  Ok tt (mkState (fs s) (move_count s) (stdout s ++ [l]) (mutations s)).

Definition get : M state := λ s, Ok s s.

(** [category_folder.mkdir(exist_ok=True)]: creates the folder when the name
    is free, does nothing when it is a directory already, and raises
    [FileExistsError] when the name is taken by something else. That the
    desktop lets folders be created is taken for granted. *)
Definition mkdir_exist_ok (desktop_path : path) (category : string) : M unit := λ s,
  match entry (fs s) category with
  | None =>
      Ok tt (mkState (fs s ++ [(category, Dir ∅)]) (move_count s) (stdout s)
                     (mutations s ++ [Mkdir (desktop_path ++ [category])]))
  | Some (Dir _) => Ok tt s
  | Some _ => raise (FileExistsError (desktop_path ++ [category])) s
  end.

(** [shutil.move(str(item), str(destination))] for a regular file [name] of
    the desktop and a destination [desktop_path/category/unique_filename]
    that does not exist: the entry leaves the desktop and its new name
    appears under the folder, unless the file is locked. The loop calls it
    only after [is_file] and [mkdir] succeeded; the two other failures are
    those of a source that is gone and of a folder that is not there. *)
Definition shutil_move (desktop_path : path) (name category unique_filename : string)
    : M unit := λ s,
  match entry (fs s) category, entry (fs s) name with
  | Some (Dir _), Some (File false) =>
      Ok tt (mkState (add_child category unique_filename (remove_entry name (fs s)))
                     (move_count s) (stdout s)
                     (mutations s ++ [Move (desktop_path ++ [name])
                                           (desktop_path ++ [category; unique_filename])]))
  | Some (Dir _), Some (File true) =>
      raise (PermissionError (desktop_path ++ [name])) s
  | Some (Dir _), _ => raise (FileNotFoundError (desktop_path ++ [name])) s
  | _, _ => raise (NotADirectoryError (desktop_path ++ [category])) s
  end.

(** [move_count[category] += 1] on a [defaultdict(int)]. *)
Definition count_move (category : string) : M unit := λ s,
  Ok tt (mkState (fs s)
                 (<[category := S (default 0 (move_count s !! category))]> (move_count s))
                 (stdout s) (mutations s)).

(** ** Organizer *)

Definition get_desktop_path (home : path) : path := home ++ ["Desktop"].

(** The filter at the head of the loop body: the three [continue]s. *)
Definition skipped (d : desktop) (name : string) : bool :=
  negb (is_file d name) || bool_decide (name ∈ IGNORED_FILES) || startswith_dot name.

(** The body of the [for item in items] loop, for the item named [name]. *)
Definition process_item (desktop_path : path) (name : string) : M unit :=
  s ← get;
  if negb (is_file (fs s) name) then mret tt
  else if bool_decide (name ∈ IGNORED_FILES) then mret tt
  else if startswith_dot name then mret tt
  else
    let file_extension := suffix name in
    let category := get_category file_extension in
    mkdir_exist_ok desktop_path category ;;
    s ← get;
    let unique_filename := get_unique_filename (children_of (fs s) category) name in
    try_except
      (shutil_move desktop_path name category unique_filename ;;
       count_move category ;;
       print (Moved name category unique_filename))
      (λ e, print (ErrorMoving name e)).

Fixpoint for_each (items : list string) (body : string → M unit) : M unit :=
  match items with
  | [] => mret tt
  | item :: rest => body item ;; for_each rest body
  end.

Fixpoint print_all (ls : list line) : M unit :=
  match ls with
  | [] => mret tt
  | l :: rest => print l ;; print_all rest
  end.

(** [sum(move_count.values())]. *)
Definition total_files (move_count : gmap string nat) : nat :=
  sum_list (map_to_list move_count).*2.

(** [sorted(move_count.keys())]. *)
Definition sorted_keys (move_count : gmap string nat) : list string :=
  merge_sort String.le (map_to_list move_count).*1.

(** The lines printed after the banner. *)
Definition summary (move_count : gmap string nat) : list line :=
  if bool_decide (total_files move_count = 0) then [NothingMoved]
  else
    ((λ category, CategoryCount category (default 0 (move_count !! category)))
       <$> sorted_keys move_count)
    ++ [TotalOrganized (total_files move_count)].

Definition initial (d : desktop) : state := mkState d ∅ [] [].

(** [organize_desktop], run in a world where the desktop directory is
    missing ([None]) or holds the entries [d] ([Some d]). *)
Definition organize_desktop (home : path) (world : option desktop) : result unit :=
  let desktop_path := get_desktop_path home in
  match world with
  | None => print (ErrorNotFound desktop_path) (initial [])
  | Some d =>
      (print (Organizing desktop_path) ;;
       let items := d.*1 in
       for_each items (process_item desktop_path) ;;
       print RuleAfterBlank ;;
       print SummaryTitle ;;
       print Rule ;;
       s ← get;
       print_all (summary (move_count s))) (initial d)
  end.

(** The [if __name__ == "__main__"] block: the script calls
    [organize_desktop()] and ends; what is observed is the exit status. *)
Definition main (home : path) (world : option desktop) : nat :=
  exit_status (organize_desktop home world).

(** The world a run leaves behind. *)
Definition world_after (world : option desktop) (r : result unit) : option desktop :=
  match world with
  | None => None
  | Some _ => Some (fs (final r))
  end.

(** ** Vocabulary of the properties *)

(** Whether [name] is a regular file of [d], and whether it is locked. *)
Definition lock_of (d : desktop) (name : string) : option bool :=
  match entry d name with
  | Some (File locked) => Some locked
  | _ => None
  end.

(** A name that [mkdir(exist_ok=True)] accepts: free, or a directory. *)
Definition free_or_dir (o : option node) : bool :=
  match o with
  | None | Some (Dir _) => true
  | Some _ => false
  end.

(** The desktop after [mkdir_exist_ok] returned, and what the call logged. *)
Definition ensured (d : desktop) (category : string) : desktop :=
  match entry d category with
  | None => d ++ [(category, Dir ∅)]
  | Some _ => d
  end.

Definition ensure_log (desktop_path : path) (d : desktop) (category : string)
    : list fsop :=
  match entry d category with
  | None => [Mkdir (desktop_path ++ [category])]
  | Some _ => []
  end.

(** The names whose move a printed line reports as done, or as failed. *)
Definition moved_name (l : line) : option string :=
  match l with Moved name _ _ => Some name | _ => None end.

Definition failed_name (l : line) : option string :=
  match l with ErrorMoving name _ => Some name | _ => None end.

Definition moved_names (out : list line) : list string := omap moved_name out.
Definition failed_names (out : list line) : list string := omap failed_name out.

(** The number of lines that report a move into [category]. *)
Definition moved_category (l : line) : option string :=
  match l with Moved _ category _ => Some category | _ => None end.

Definition moves_into (category : string) (out : list line) : nat :=
  length (filter (λ c, c = category) (omap moved_category out)).

(** The sources of the moves a log records. *)
Definition move_source (op : fsop) : option path :=
  match op with Move src _ => Some src | Mkdir _ => None end.

(** The state after an eligible, unlocked file was moved. *)
Definition after_move (desktop_path : path) (name : string) (s : state) : state :=
  let category := get_category (suffix name) in
  let unique_filename := get_unique_filename (children_of (fs s) category) name in
  mkState
    (add_child category unique_filename (remove_entry name (ensured (fs s) category)))
    (<[category := S (default 0 (move_count s !! category))]> (move_count s))
    (stdout s ++ [Moved name category unique_filename])
    (mutations s ++ ensure_log desktop_path (fs s) category
       ++ [Move (desktop_path ++ [name])
                (desktop_path ++ [category; unique_filename])]).

(** The state after the move of an eligible file failed. *)
Definition after_failure (desktop_path : path) (name : string) (s : state) : state :=
  let category := get_category (suffix name) in
  mkState
    (ensured (fs s) category)
    (move_count s)
    (stdout s ++ [ErrorMoving name (PermissionError (desktop_path ++ [name]))])
    (mutations s ++ ensure_log desktop_path (fs s) category).

Ltac run_body :=
  unfold process_item, mbind, M_bind, bind, get, mret, M_ret, ret, try_except,
    mkdir_exist_ok, shutil_move, count_move, print, raise; simpl.

(** An eligible file that the system lets go, and one that it does not. *)
Definition movable (d : desktop) (name : string) : bool :=
  negb (skipped d name) && bool_decide (lock_of d name = Some false).

Definition stuck (d : desktop) (name : string) : bool :=
  negb (skipped d name) && bool_decide (lock_of d name = Some true).

(** A line about one file: the report of the move of a movable item into its
    category, or of the failure to move a stuck one. *)
Definition file_line (items : list string) (d : desktop) (l : line) : Prop :=
  ∃ name, name ∈ items ∧
    ((movable d name ∧ ∃ u, l = Moved name (get_category (suffix name)) u) ∨
     (stuck d name ∧ ∃ e, l = ErrorMoving name e)).

(** A mutation confined to the desktop: the creation of a category folder, or
    the move of a movable item into its category folder. *)
Definition confined (desktop_path : path) (items : list string) (d : desktop)
    (op : fsop) : Prop :=
  (∃ category, category ∈ category_names ∧ op = Mkdir (desktop_path ++ [category])) ∨
  (∃ name category u,
     name ∈ items ∧ movable d name ∧
     category = get_category (suffix name) ∧ category ∈ category_names ∧
     op = Move (desktop_path ++ [name]) (desktop_path ++ [category; u])).

(** What a stretch of the run, from [s] to [s'], may do: no regular file
    appears, each new name on the desktop is a category label, the entries
    the filter rejects stay, lines and mutations are only added, each added
    line is about a file that passed the filter, and each added mutation is
    confined. *)
Definition trace (desktop_path : path) (items : list string) (s s' : state) : Prop :=
  (∀ name locked, lock_of (fs s') name = Some locked →
                  lock_of (fs s) name = Some locked) ∧
  (∀ name, name ∈ (fs s').*1 → name ∈ (fs s).*1 ∨ name ∈ category_names) ∧
  (∀ name, skipped (fs s) name = true → name ∈ (fs s).*1 → name ∈ (fs s').*1) ∧
  ∃ extra ops,
    stdout s' = stdout s ++ extra ∧
    mutations s' = mutations s ++ ops ∧
    Forall (file_line items (fs s)) extra ∧
    Forall (confined desktop_path items (fs s)) ops.

(** The tally agrees with the lines printed so far, and these with the moves
    performed. *)
Definition tally_ok (s : state) : Prop :=
  (∀ category, default 0 (move_count s !! category) = moves_into category (stdout s)) ∧
  (∀ category count, move_count s !! category = Some count → 0 < count) ∧
  total_files (move_count s) = length (moved_names (stdout s)) ∧
  length (omap move_source (mutations s)) = length (moved_names (stdout s)).

(** The state in which the loop starts, and the state a run ends in when
    the loop ended in [s]. *)
Definition started (desktop_path : path) (d : desktop) : state :=
  mkState d ∅ [Organizing desktop_path] [].

Definition reported (s : state) : state :=
  mkState (fs s) (move_count s)
          (stdout s ++ [RuleAfterBlank; SummaryTitle; Rule] ++ summary (move_count s))
          (mutations s).

(** ** Vocabulary of further properties *)

(** The last character of a string. *)
Fixpoint last_char (s : string) : option ascii :=
  match s with
  | EmptyString => None
  | String c rest =>
      match last_char rest with
      | Some c' => Some c'
      | None => Some c
      end
  end.

(** A name held by a directory. *)
Definition is_dir (o : option node) : bool :=
  match o with
  | Some (Dir _) => true
  | _ => false
  end.

(** What a line that reports a move promises, checked against a desktop: the
    new name is in the category folder, and the old name is no regular file
    of the desktop any more. *)
Definition delivered_line (d : desktop) (l : line) : Prop :=
  match l with
  | Moved name category unique_filename =>
      unique_filename ∈ children_of d category ∧ lock_of d name = None
  | _ => True
  end.

Definition delivered (s : state) : Prop := Forall (delivered_line (fs s)) (stdout s).

(** What a stretch of the run keeps: the names under every folder; the
    absence of a regular file; every entry that is not reported as moved;
    the lines printed; and the promises of the lines. *)
Definition kept (s s' : state) : Prop :=
  (∀ folder, children_of (fs s) folder ⊆ children_of (fs s') folder) ∧
  (∀ name, lock_of (fs s) name = None → lock_of (fs s') name = None) ∧
  (∀ name, name ∈ (fs s).*1 → name ∈ (fs s').*1 ∨ name ∈ moved_names (stdout s')) ∧
  (∃ extra, stdout s' = stdout s ++ extra) ∧
  (delivered s → delivered s').

(** The paths of the folders a log creates. *)
Definition mkdir_path (op : fsop) : option path :=
  match op with
  | Mkdir p => Some p
  | Move _ _ => None
  end.

(** How folders come to be over a stretch of the run: directories stay, no
    folder is created twice, and each folder created is that of the category
    of an item that passed the filter, at a name no directory held. *)
Definition built (desktop_path : path) (items : list string) (s s' : state) : Prop :=
  (∀ name locked, lock_of (fs s') name = Some locked →
                  lock_of (fs s) name = Some locked) ∧
  (∀ folder, is_dir (entry (fs s) folder) = true →
             is_dir (entry (fs s') folder) = true) ∧
  ∃ ops,
    mutations s' = mutations s ++ ops ∧
    NoDup (omap mkdir_path ops) ∧
    ∀ p, p ∈ omap mkdir_path ops →
      ∃ name, name ∈ items ∧ skipped (fs s) name = false ∧
              p = desktop_path ++ [get_category (suffix name)] ∧
              is_dir (entry (fs s) (get_category (suffix name))) = false ∧
              is_dir (entry (fs s') (get_category (suffix name))) = true.

(** The error line of a file that is stuck. *)
Definition stuck_line (desktop_path : path) (name : string) : line :=
  ErrorMoving name (PermissionError (desktop_path ++ [name])).

(** The destinations of the moves a log records. *)
Definition move_target (op : fsop) : option path :=
  match op with
  | Move _ dst => Some dst
  | Mkdir _ => None
  end.

(** Where the moves of a stretch of the run land: on paths that differ from
    one another, each the path of a name under a category folder that was
    not there before and is there afterwards; and the names under every
    folder stay. *)
Definition landed (desktop_path : path) (s s' : state) : Prop :=
  (∀ folder, children_of (fs s) folder ⊆ children_of (fs s') folder) ∧
  ∃ ops,
    mutations s' = mutations s ++ ops ∧
    NoDup (omap move_target ops) ∧
    ∀ q, q ∈ omap move_target ops →
      ∃ category u, category ∈ category_names ∧
                    q = desktop_path ++ [category; u] ∧
                    (u ∉ children_of (fs s) category) ∧
                    u ∈ children_of (fs s') category.

(** ** A sample desktop *)

Definition sample_home : path := ["Users"; "ada"].

(** Four files pass the filter; one of them, [notes.txt], is locked. *)
Definition sample_desktop : desktop :=
  [ ("photo.jpg", File false);
    ("Images", Dir {[ "photo.jpg" ]});
    (".DS_Store", File false);
    ("notes.txt", File true);
    ("README", File false);
    ("b.zip", File false);
    ("Projects", Dir ∅) ].

(** ** Classifier: lemmas *)

Lemma first_category_none table x :
  first_category table x = None ↔ ∀ c, ¬ claims table c x.
Proof.
  induction table as [|[c exts] table IH]; simpl.
  - split; [|done]. intros _ c (exts & Hin & _). by apply elem_of_nil in Hin.
  - case_bool_decide as Hx.
    + split; [done|]. intros Hno. destruct (Hno c). exists exts. split; [apply list_elem_of_here|done].
    + rewrite IH. split.
      * intros Hno c' (exts' & Hin & Hx'). apply elem_of_cons in Hin as [Heq|Hin].
        { by simplify_eq. }
        apply (Hno c'). by exists exts'.
      * intros Hno c' (exts' & Hin & Hx'). apply (Hno c'). exists exts'.
        split; [by apply list_elem_of_further|done].
Qed.

(** First match wins: the entry found is the earliest one that lists [x]. *)
Lemma first_category_first pre c exts post x :
  x ∈ exts →
  (∀ c' exts', (c', exts') ∈ pre → x ∉ exts') →
  first_category (pre ++ (c, exts) :: post) x = Some c.
Proof.
  intros Hx. induction pre as [|[c0 e0] pre IH]; intros Hpre; simpl.
  - by rewrite bool_decide_eq_true_2.
  - rewrite bool_decide_eq_false_2.
    + apply IH. intros c' exts' Hin. apply (Hpre c'). by apply list_elem_of_further.
    + apply (Hpre c0). apply list_elem_of_here.
Qed.

Lemma first_category_claims table x c :
  first_category table x = Some c → claims table c x.
Proof.
  induction table as [|[c0 e0] table IH]; simpl; [done|].
  case_bool_decide as Hx.
  - intros [= <-]. exists e0. split; [apply list_elem_of_here|done].
  - intros (exts & Hin & Hx')%IH. exists exts.
    split; [by apply list_elem_of_further|done].
Qed.

Lemma exclusive_tail entry table : exclusive (entry :: table) → exclusive table.
Proof. unfold exclusive. simpl. by intros [_ [_ ?]]%NoDup_app. Qed.

Lemma exclusive_head c exts table x c' :
  exclusive ((c, exts) :: table) → x ∈ exts → ¬ claims table c' x.
Proof.
  unfold exclusive. simpl. intros (_ & Hdisj & _)%NoDup_app Hx (exts' & Hin & Hx').
  apply (Hdisj x Hx). apply list_elem_of_join. exists exts'. split; [done|].
  apply list_elem_of_fmap. by exists (c', exts').
Qed.

(** In an exclusive table the category that claims [x] is the one returned. *)
Lemma first_category_exclusive table x c :
  exclusive table → claims table c x → first_category table x = Some c.
Proof.
  induction table as [|[c0 e0] table IH]; intros Hex (exts & Hin & Hx).
  - by apply elem_of_nil in Hin.
  - simpl. apply elem_of_cons in Hin as [Heq|Hin].
    + simplify_eq. by rewrite bool_decide_eq_true_2.
    + case_bool_decide as Hx0.
      * destruct (exclusive_head _ _ _ _ c Hex Hx0). by exists exts.
      * apply IH; [by eapply exclusive_tail|]. by exists exts.
Qed.

Lemma FILE_CATEGORIES_exclusive : exclusive FILE_CATEGORIES.
Proof. apply (bool_decide_unpack _). by vm_compute. Qed.

Lemma get_category_in_names e : get_category e ∈ category_names.
Proof.
  unfold get_category, get_category_in.
  destruct (first_category _ _) as [c|] eqn:Hc; simpl.
  - apply first_category_claims in Hc as (exts & Hin & _).
    apply list_elem_of_fmap. by exists (c, exts).
  - vm_compute. set_solver.
Qed.

(** C1. [get_category] returns the category whose configured list holds the
    lowercased extension and ["Others"] when no list holds it; extensions
    that differ only in case get the same category ([".JPG"] and [".jpg"]
    are both Images); being a function, it is total and deterministic, and
    its value is always one of the configured labels. *)
Theorem get_category_correct (e : string) :
  (∀ c exts, (c, exts) ∈ FILE_CATEGORIES → lower e ∈ exts → get_category e = c) ∧
  ((∀ c exts, (c, exts) ∈ FILE_CATEGORIES → lower e ∉ exts) →
     get_category e = "Others") ∧
  (∀ e', lower e' = lower e → get_category e' = get_category e) ∧
  get_category e ∈ category_names ∧
  get_category ".JPG" = "Images" ∧ get_category ".jpg" = "Images".
Proof.
  split_and!.
  - intros c exts Hin Hx. unfold get_category, get_category_in.
    rewrite (first_category_exclusive _ _ c); [done| |by exists exts].
    apply FILE_CATEGORIES_exclusive.
  - intros Hno. unfold get_category, get_category_in.
    assert (first_category FILE_CATEGORIES (lower e) = None) as ->; [|done].
    apply first_category_none. intros c (exts & Hin & Hx). by apply (Hno c exts).
  - intros e' Heq. unfold get_category, get_category_in. by rewrite Heq.
  - apply get_category_in_names.
  - by vm_compute.
  - by vm_compute.
Qed.

(** ** Tie-break *)

Lemma exclusive_lookup table i j c1 e1 c2 e2 x :
  exclusive table → i < j →
  table !! i = Some (c1, e1) → table !! j = Some (c2, e2) →
  x ∈ e1 → x ∉ e2.
Proof.
  revert i j. induction table as [|[c0 e0] table IH]; intros i j Hex Hlt Hi Hj Hx1 Hx2.
  - done.
  - destruct i as [|i], j as [|j]; try lia; simpl in *.
    + simplify_eq. apply (exclusive_head _ _ _ _ c2 Hex Hx1).
      exists e2. split; [|done]. by eapply list_elem_of_lookup_2.
    + apply (IH i j); [by eapply exclusive_tail|lia|done..].
Qed.

(** C8. The configured extension lists are pairwise disjoint, so exactly one
    category matches any extension, and it is the one returned; over any
    table, overlapping or not, the entry that lists the extension and comes
    first in the table's order is the one returned. *)
Theorem get_category_tie_break :
  (∀ i j c1 e1 c2 e2 x,
     i ≠ j →
     FILE_CATEGORIES !! i = Some (c1, e1) → FILE_CATEGORIES !! j = Some (c2, e2) →
     x ∈ e1 → x ∉ e2) ∧
  (∀ e c, matches FILE_CATEGORIES c e ↔ c = get_category e) ∧
  (∀ table pre c exts post e,
     table = pre ++ (c, exts) :: post →
     lower e ∈ exts →
     (∀ c' exts', (c', exts') ∈ pre → lower e ∉ exts') →
     get_category_in table e = c) ∧
  get_category_in [("First", [".x"]); ("Second", [".x"; ".y"])] ".X" = "First".
Proof.
  split_and!.
  - intros i j c1 e1 c2 e2 x Hne Hi Hj Hx1 Hx2.
    destruct (decide (i < j)).
    + by apply (exclusive_lookup _ i j c1 e1 c2 e2 x FILE_CATEGORIES_exclusive).
    + apply (exclusive_lookup _ j i c2 e2 c1 e1 x FILE_CATEGORIES_exclusive);
        [lia|done..].
  - intros e c. unfold matches, get_category, get_category_in. split.
    + intros [Hc|[-> Hno]].
      * by rewrite (first_category_exclusive _ _ c FILE_CATEGORIES_exclusive Hc).
      * apply first_category_none in Hno. by rewrite Hno.
    + intros ->. destruct (first_category _ _) as [c|] eqn:Hc; simpl.
      * left. by apply first_category_claims.
      * right. split; [done|]. by apply first_category_none.
  - intros table pre c exts post e -> Hx Hpre. unfold get_category_in.
    by rewrite (first_category_first pre c exts post).
  - by vm_compute.
Qed.

(** ** Name resolver: lemmas *)

Lemma string_length_app (s t : string) :
  String.length (s +:+ t) = String.length s + String.length t.
Proof. induction s as [|c s IH]; simpl; [done|]. by rewrite IH. Qed.

Lemma string_app_inv_tail (s1 s2 t : string) : s1 +:+ t = s2 +:+ t → s1 = s2.
Proof.
  revert s2. induction s1 as [|c1 s1 IH]; intros [|c2 s2] Heq.
  - done.
  - apply (f_equal String.length) in Heq.
    rewrite !string_length_app in Heq. simpl in Heq. lia.
  - apply (f_equal String.length) in Heq.
    rewrite !string_length_app in Heq. simpl in Heq. lia.
  - change (String c1 (s1 +:+ t) = String c2 (s2 +:+ t)) in Heq.
    injection Heq as -> Heq. f_equal. by apply IH.
Qed.

(** Distinct counters give distinct candidates. *)
Lemma candidate_inj name_stem extension : Inj (=) (=) (candidate name_stem extension).
Proof.
  intros k1 k2 Heq. unfold candidate in Heq.
  apply (inj (String.app name_stem)) in Heq.
  change (String "("%char (pretty k1 +:+ ")" +:+ extension)
          = String "("%char (pretty k2 +:+ ")" +:+ extension)) in Heq.
  injection Heq as Heq. apply string_app_inv_tail in Heq.
  by apply (inj pretty) in Heq.
Qed.

(** A directory cannot hold more distinct candidates than it has entries. *)
Lemma candidate_free (target_dir : gset string) name_stem extension counter :
  ∃ k, counter ≤ k < counter + S (size target_dir) ∧
       candidate name_stem extension k ∉ target_dir.
Proof.
  set (ks := seq counter (S (size target_dir))).
  destruct (Forall_Exists_dec
              (λ k, candidate name_stem extension k ∈ target_dir)
              (λ k, candidate name_stem extension k ∉ target_dir)
              (λ k, decide _) ks) as [Hall|Hex].
  - pose proof (candidate_inj name_stem extension).
    assert (size (list_to_set (C:=gset string) (candidate name_stem extension <$> ks))
            ≤ size target_dir) as Hle.
    { apply subseteq_size. intros x [k [-> Hk]]%elem_of_list_to_set%list_elem_of_fmap.
      by eapply Forall_forall in Hall. }
    rewrite size_list_to_set in Hle; [|apply NoDup_fmap_2; [done|apply NoDup_seq]].
    rewrite length_fmap in Hle. unfold ks in Hle. rewrite length_seq in Hle. lia.
  - apply Exists_exists in Hex as (k & Hk%elem_of_seq & Hfree). by exists k.
Qed.

(** The loop returns the candidate of the least free counter, when one lies
    within the fuel. *)
Lemma unique_loop_least fuel (target_dir : gset string) name_stem extension counter :
  (∃ k, counter ≤ k < counter + fuel ∧ candidate name_stem extension k ∉ target_dir) →
  ∃ k, counter ≤ k < counter + fuel ∧
       unique_loop fuel target_dir name_stem extension counter
         = Some (candidate name_stem extension k) ∧
       (candidate name_stem extension k ∉ target_dir) ∧
       ∀ j, counter ≤ j < k → candidate name_stem extension j ∈ target_dir.
Proof.
  revert counter. induction fuel as [|fuel IH]; intros counter (k & Hk & Hfree).
  - lia.
  - simpl. case_bool_decide as Hc.
    + destruct (IH (S counter)) as (k' & Hk' & Hrun & Hfree' & Hleast).
      { exists k. split; [|done]. destruct (decide (k = counter)) as [->|]; [done|lia]. }
      exists k'. split_and!; [lia|lia|done|done|].
      intros j Hj. destruct (decide (j = counter)) as [->|]; [done|]. apply Hleast. lia.
    + exists counter. split_and!; [lia|lia|done|done|]. intros j Hj. lia.
Qed.

(** More fuel does not change a result already found. *)
Lemma unique_loop_mono fuel fuel' (target_dir : gset string) name_stem extension counter r :
  fuel ≤ fuel' →
  unique_loop fuel target_dir name_stem extension counter = Some r →
  unique_loop fuel' target_dir name_stem extension counter = Some r.
Proof.
  revert fuel' counter. induction fuel as [|fuel IH]; intros fuel' counter Hle; [done|].
  destruct fuel' as [|fuel']; [lia|]. simpl. case_bool_decide; [|done].
  apply IH. lia.
Qed.

(** With one candidate more than the directory has entries the loop ends. *)
Lemma get_unique_filename_enough fuel (target_dir : gset string) filename :
  size target_dir < fuel →
  get_unique_filename_fuel fuel target_dir filename
    = Some (get_unique_filename target_dir filename).
Proof.
  intros Hfuel. unfold get_unique_filename, get_unique_filename_fuel.
  case_bool_decide; [|done].
  destruct (unique_loop_least (S (size target_dir)) target_dir
              (stem filename) (suffix filename) 1) as (k & _ & Hrun & _).
  { apply candidate_free. }
  rewrite Hrun. simpl. eapply unique_loop_mono; [|done]. lia.
Qed.

Lemma get_unique_filename_taken (target_dir : gset string) filename :
  filename ∈ target_dir →
  ∃ k, 1 ≤ k ∧
       get_unique_filename target_dir filename
         = candidate (stem filename) (suffix filename) k ∧
       (candidate (stem filename) (suffix filename) k ∉ target_dir) ∧
       ∀ j, 1 ≤ j < k → candidate (stem filename) (suffix filename) j ∈ target_dir.
Proof.
  intros Hin. unfold get_unique_filename, get_unique_filename_fuel.
  rewrite bool_decide_eq_true_2; [|done].
  destruct (unique_loop_least (S (size target_dir)) target_dir
              (stem filename) (suffix filename) 1) as (k & Hk & Hrun & Hfree & Hleast).
  { apply candidate_free. }
  exists k. rewrite Hrun. split_and!; [lia|done..].
Qed.

Lemma get_unique_filename_free (target_dir : gset string) filename :
  filename ∉ target_dir → get_unique_filename target_dir filename = filename.
Proof.
  intros Hout. unfold get_unique_filename, get_unique_filename_fuel.
  by rewrite bool_decide_eq_false_2.
Qed.

Lemma get_unique_filename_fresh (target_dir : gset string) filename :
  get_unique_filename target_dir filename ∉ target_dir.
Proof.
  destruct (decide (filename ∈ target_dir)) as [Hin|Hout].
  - destruct (get_unique_filename_taken _ _ Hin) as (k & _ & -> & Hfree & _). done.
  - by rewrite get_unique_filename_free.
Qed.

(** C2. For every directory state and proposed name: the loop of
    [get_unique_filename] ends (any fuel above the number of entries gives
    the result); a name that does not exist is returned unchanged; otherwise
    the result is [stem(k)ext] for the least [k >= 1] whose candidate does
    not exist; the result never exists in the directory; and when the plain
    name and the candidates 1 to N-1 exist while candidate N does not, the
    result is candidate N. *)
Theorem get_unique_filename_correct (target_dir : gset string) (filename : string) :
  (∀ fuel, size target_dir < fuel →
     get_unique_filename_fuel fuel target_dir filename
       = Some (get_unique_filename target_dir filename)) ∧
  (filename ∉ target_dir → get_unique_filename target_dir filename = filename) ∧
  (filename ∈ target_dir →
     ∃ k, 1 ≤ k ∧
          get_unique_filename target_dir filename
            = candidate (stem filename) (suffix filename) k ∧
          (candidate (stem filename) (suffix filename) k ∉ target_dir) ∧
          ∀ j, 1 ≤ j < k → candidate (stem filename) (suffix filename) j ∈ target_dir) ∧
  (get_unique_filename target_dir filename ∉ target_dir) ∧
  (∀ N, 1 ≤ N →
     filename ∈ target_dir →
     (∀ j, 1 ≤ j < N → candidate (stem filename) (suffix filename) j ∈ target_dir) →
     candidate (stem filename) (suffix filename) N ∉ target_dir →
     get_unique_filename target_dir filename
       = candidate (stem filename) (suffix filename) N).
Proof.
  split_and!.
  - intros fuel. apply get_unique_filename_enough.
  - apply get_unique_filename_free.
  - apply get_unique_filename_taken.
  - apply get_unique_filename_fresh.
  - intros N HN Hin Hbelow Hfree.
    destruct (get_unique_filename_taken _ _ Hin) as (k & Hk & -> & Hfree' & Hleast).
    f_equal. destruct (lt_eq_lt_dec k N) as [[Hlt| ->]|Hgt]; [|done|].
    + destruct Hfree'. apply Hbelow. lia.
    + destruct Hfree. apply Hleast. lia.
Qed.

(** ** File system: lemmas *)

Lemma entry_None d name : entry d name = None ↔ name ∉ d.*1.
Proof.
  induction d as [|[n k] d IH]; simpl.
  - split; [intros _; apply not_elem_of_nil|done].
  - case_bool_decide as Hn.
    + split; [done|]. intros []. subst. apply list_elem_of_here.
    + rewrite IH, not_elem_of_cons. split; [|by intros [_ ?]].
      intros Hout. split; [|done]. by intros ->.
Qed.

Lemma entry_app d d' name :
  entry (d ++ d') name = match entry d name with
                         | Some k => Some k
                         | None => entry d' name
                         end.
Proof.
  induction d as [|[n k] d IH]; simpl; [done|]. by case_bool_decide.
Qed.

Lemma entry_remove_eq d name : entry (remove_entry name d) name = None.
Proof.
  apply entry_None. unfold remove_entry.
  intros ([n k] & -> & [Hne _]%list_elem_of_filter)%list_elem_of_fmap. done.
Qed.

Lemma entry_remove_ne d name other :
  name ≠ other → entry (remove_entry name d) other = entry d other.
Proof.
  intros Hne. unfold remove_entry. induction d as [|[n k] d IH]; [done|].
  rewrite filter_cons. simpl. case_decide as Hn; simpl.
  - by rewrite IH.
  - rewrite IH. rewrite bool_decide_eq_false_2; [done|]. congruence.
Qed.

Lemma entry_add_child d folder child name :
  entry (add_child folder child d) name
  = (λ k, if bool_decide (name = folder) then with_child child k else k)
      <$> entry d name.
Proof.
  unfold add_child. induction d as [|[n k] d IH]; [done|].
  rewrite fmap_cons. simpl.
  destruct (decide (n = folder)) as [->|Hnf].
  - rewrite (bool_decide_eq_true_2 (folder = folder)); [|done]. simpl.
    rewrite IH. repeat case_bool_decide; simplify_eq/=; done.
  - rewrite (bool_decide_eq_false_2 (n = folder)); [|done]. simpl.
    rewrite IH. repeat case_bool_decide; simplify_eq/=; done.
Qed.

Lemma names_add_child d folder child : (add_child folder child d).*1 = d.*1.
Proof.
  unfold add_child. rewrite <-list_fmap_compose. apply list_fmap_ext.
  intros _ [n k] _. simpl. by case_bool_decide.
Qed.

Lemma names_remove_entry d name :
  (remove_entry name d).*1 = filter (λ n, n ≠ name) d.*1.
Proof.
  unfold remove_entry. induction d as [|[n k] d IH]; [done|].
  rewrite fmap_cons, !filter_cons. simpl.
  case_decide; [rewrite fmap_cons; simpl|]; by rewrite IH.
Qed.

Lemma lock_of_add_child d folder child name :
  lock_of (add_child folder child d) name = lock_of d name.
Proof.
  unfold lock_of. rewrite entry_add_child.
  destruct (entry d name) as [[locked|ch|]|]; simpl; try done;
    by case_bool_decide.
Qed.

Lemma lock_of_remove_ne d name other :
  name ≠ other → lock_of (remove_entry name d) other = lock_of d other.
Proof. intros Hne. unfold lock_of. by rewrite entry_remove_ne. Qed.

Lemma lock_of_remove_eq d name : lock_of (remove_entry name d) name = None.
Proof. unfold lock_of. by rewrite entry_remove_eq. Qed.

Lemma lock_of_ensured d category name :
  lock_of (ensured d category) name = lock_of d name.
Proof.
  unfold lock_of, ensured. destruct (entry d category) eqn:Hc; [done|].
  rewrite entry_app. destruct (entry d name) eqn:Hn; [done|]. simpl.
  by case_bool_decide.
Qed.

Lemma entry_ensured_folder d category :
  free_or_dir (entry d category) = true →
  entry (ensured d category) category = Some (Dir (children_of d category)).
Proof.
  unfold ensured, children_of. destruct (entry d category) as [[]|] eqn:Hc; try done.
  intros _. rewrite entry_app, Hc. simpl. by rewrite bool_decide_eq_true_2.
Qed.

(** ** One pass of the loop body *)

Lemma skipped_false d name :
  skipped d name = false ↔
  is_file d name = true ∧ (name ∉ IGNORED_FILES) ∧ startswith_dot name = false.
Proof.
  unfold skipped. rewrite !orb_false_iff, negb_false_iff, bool_decide_eq_false.
  tauto.
Qed.

Lemma process_item_skipped desktop_path name s :
  skipped (fs s) name = true → process_item desktop_path name s = Ok tt s.
Proof.
  unfold skipped. run_body.
  destruct (is_file (fs s) name); simpl; [|done].
  case_bool_decide; simpl; [done|]. by intros ->.
Qed.

Lemma process_item_blocked desktop_path name s :
  skipped (fs s) name = false →
  free_or_dir (entry (fs s) (get_category (suffix name))) = false →
  process_item desktop_path name s
  = Raised (FileExistsError (desktop_path ++ [get_category (suffix name)])) s.
Proof.
  intros (Hfile & Hign & Hdot)%skipped_false Hblocked. run_body.
  rewrite Hfile, Hdot. simpl. rewrite bool_decide_eq_false_2; [|done].
  by destruct (entry (fs s) (get_category (suffix name))) as [[]|].
Qed.

Lemma process_item_failure desktop_path name s :
  skipped (fs s) name = false →
  free_or_dir (entry (fs s) (get_category (suffix name))) = true →
  lock_of (fs s) name = Some true →
  process_item desktop_path name s = Ok tt (after_failure desktop_path name s).
Proof.
  intros (Hfile & Hign & Hdot)%skipped_false Hfree Hlock. run_body.
  rewrite Hfile, Hdot. simpl. rewrite bool_decide_eq_false_2; [|done].
  unfold after_failure, ensured, ensure_log, lock_of in *.
  destruct (entry (fs s) name) as [[[]| |]|] eqn:Hn; try done.
  destruct (entry (fs s) (get_category (suffix name))) as [[| |]|] eqn:Hc;
    try done; simpl.
  - rewrite Hn, Hc. simpl. by rewrite app_nil_r.
  - rewrite !entry_app, Hn, Hc. simpl. by rewrite bool_decide_eq_true_2.
Qed.

Lemma process_item_move desktop_path name s :
  skipped (fs s) name = false →
  free_or_dir (entry (fs s) (get_category (suffix name))) = true →
  lock_of (fs s) name = Some false →
  process_item desktop_path name s = Ok tt (after_move desktop_path name s).
Proof.
  intros (Hfile & Hign & Hdot)%skipped_false Hfree Hlock. run_body.
  rewrite Hfile, Hdot. simpl. rewrite bool_decide_eq_false_2; [|done].
  unfold after_move, ensured, ensure_log, lock_of, children_of in *.
  destruct (entry (fs s) name) as [[[]| |]|] eqn:Hn; try done.
  destruct (entry (fs s) (get_category (suffix name))) as [[| |]|] eqn:Hc;
    try done; simpl.
  - by rewrite Hn, Hc.
  - rewrite !entry_app, Hn, Hc. simpl. rewrite bool_decide_eq_true_2; [|done].
    simpl. by rewrite <-app_assoc.
Qed.

Lemma is_file_lock d name :
  is_file d name = match lock_of d name with Some _ => true | None => false end.
Proof. unfold is_file, lock_of. by destruct (entry d name) as [[]|]. Qed.

Lemma skipped_lock d d' name :
  lock_of d name = lock_of d' name → skipped d name = skipped d' name.
Proof. intros Heq. unfold skipped. by rewrite !is_file_lock, Heq. Qed.

Lemma skipped_false_mono d d' name :
  (∀ locked, lock_of d' name = Some locked → lock_of d name = Some locked) →
  skipped d' name = false → skipped d name = false.
Proof.
  intros Hmono. unfold skipped. rewrite !is_file_lock.
  destruct (lock_of d' name) as [locked|]; [|done].
  by rewrite (Hmono locked).
Qed.

(** The four ways a pass of the loop body can go. *)
Lemma process_item_cases desktop_path name s :
  (skipped (fs s) name = true ∧ process_item desktop_path name s = Ok tt s) ∨
  (skipped (fs s) name = false ∧
   free_or_dir (entry (fs s) (get_category (suffix name))) = false ∧
   process_item desktop_path name s
   = Raised (FileExistsError (desktop_path ++ [get_category (suffix name)])) s) ∨
  (skipped (fs s) name = false ∧
   free_or_dir (entry (fs s) (get_category (suffix name))) = true ∧
   lock_of (fs s) name = Some true ∧
   process_item desktop_path name s = Ok tt (after_failure desktop_path name s)) ∨
  (skipped (fs s) name = false ∧
   free_or_dir (entry (fs s) (get_category (suffix name))) = true ∧
   lock_of (fs s) name = Some false ∧
   process_item desktop_path name s = Ok tt (after_move desktop_path name s)).
Proof.
  destruct (skipped (fs s) name) eqn:Hskip.
  { left. split; [done|]. by apply process_item_skipped. }
  right.
  destruct (free_or_dir (entry (fs s) (get_category (suffix name)))) eqn:Hfree.
  2:{ left. split_and!; [done..|]. by apply process_item_blocked. }
  right. pose proof Hskip as (Hfile & _)%skipped_false.
  rewrite is_file_lock in Hfile.
  destruct (lock_of (fs s) name) as [[]|] eqn:Hlock; [| |done].
  - left. split_and!; try done. by apply process_item_failure.
  - right. split_and!; try done. by apply process_item_move.
Qed.

(** ** The loop *)

Lemma for_each_cons item rest body s :
  for_each (item :: rest) body s
  = match body item s with
    | Ok _ s' => for_each rest body s'
    | Raised e s' => Raised e s'
    end.
Proof. done. Qed.

(** A reflexive and transitive relation that every pass of the body
    respects holds between the two ends of the loop. *)
Lemma for_each_final (P : state → state → Prop) items body s :
  (∀ s, P s s) →
  (∀ s1 s2 s3, P s1 s2 → P s2 s3 → P s1 s3) →
  (∀ name s, name ∈ items → P s (final (body name s))) →
  P s (final (for_each items body s)).
Proof.
  intros Hrefl Htrans. revert s.
  induction items as [|item rest IH]; intros s Hbody; [apply Hrefl|].
  rewrite for_each_cons.
  pose proof (Hbody item s (list_elem_of_here _ _)) as Hstep.
  destruct (body item s) as [[] s'|e s']; simpl in *; [|done].
  apply (Htrans _ s'); [done|]. apply IH.
  intros name s0 Hin. apply Hbody. by apply list_elem_of_further.
Qed.

(** ** What a run may do *)

Lemma names_ensured d category name :
  name ∈ (ensured d category).*1 → name ∈ d.*1 ∨ name = category.
Proof.
  unfold ensured. destruct (entry d category); [by left|].
  rewrite fmap_app, elem_of_app. simpl. rewrite list_elem_of_singleton. tauto.
Qed.

Lemma ensure_log_confined desktop_path items d0 d name :
  Forall (confined desktop_path items d0)
         (ensure_log desktop_path d (get_category (suffix name))).
Proof.
  unfold ensure_log. destruct (entry d _); [constructor|].
  apply Forall_singleton. left. eexists. split; [|done]. apply get_category_in_names.
Qed.

Lemma names_ensured_incl d category name :
  name ∈ d.*1 → name ∈ (ensured d category).*1.
Proof.
  unfold ensured. destruct (entry d category); [done|].
  rewrite fmap_app, elem_of_app. by left.
Qed.

Lemma skipped_true_mono d d' name :
  (∀ locked, lock_of d' name = Some locked → lock_of d name = Some locked) →
  skipped d name = true → skipped d' name = true.
Proof.
  intros Hmono Hskip. destruct (skipped d' name) eqn:Hskip'; [done|].
  apply (skipped_false_mono d) in Hskip'; [congruence|done].
Qed.

Lemma movable_spec d name :
  movable d name ↔ skipped d name = false ∧ lock_of d name = Some false.
Proof.
  unfold movable. rewrite andb_True, negb_True, Is_true_false, bool_decide_spec.
  done.
Qed.

Lemma stuck_spec d name :
  stuck d name ↔ skipped d name = false ∧ lock_of d name = Some true.
Proof.
  unfold stuck. rewrite andb_True, negb_True, Is_true_false, bool_decide_spec.
  done.
Qed.

Lemma movable_mono d d' name :
  (∀ locked, lock_of d' name = Some locked → lock_of d name = Some locked) →
  movable d' name → movable d name.
Proof.
  intros Hmono [Hskip Hlock]%movable_spec. apply movable_spec.
  split; [by eapply skipped_false_mono|by apply Hmono].
Qed.

Lemma stuck_mono d d' name :
  (∀ locked, lock_of d' name = Some locked → lock_of d name = Some locked) →
  stuck d' name → stuck d name.
Proof.
  intros Hmono [Hskip Hlock]%stuck_spec. apply stuck_spec.
  split; [by eapply skipped_false_mono|by apply Hmono].
Qed.

Lemma trace_refl desktop_path items s : trace desktop_path items s s.
Proof.
  split_and!; [done|by left|done|]. exists [], []. by rewrite !app_nil_r.
Qed.

Lemma trace_trans desktop_path items s1 s2 s3 :
  trace desktop_path items s1 s2 → trace desktop_path items s2 s3 →
  trace desktop_path items s1 s3.
Proof.
  intros (Hlock1 & Hnames1 & Hstay1 & extra1 & ops1 & Hout1 & Hops1 & Hlines1 & Hconf1)
         (Hlock2 & Hnames2 & Hstay2 & extra2 & ops2 & Hout2 & Hops2 & Hlines2 & Hconf2).
  split_and!.
  - intros name locked Hl. by apply Hlock1, Hlock2.
  - intros name [Hin|Hin]%Hnames2; [by apply Hnames1|by right].
  - intros name Hskip Hin. apply Hstay2; [|by apply Hstay1].
    eapply skipped_true_mono; [|done]. intros locked. apply Hlock1.
  - exists (extra1 ++ extra2), (ops1 ++ ops2). split_and!.
    + by rewrite Hout2, Hout1, app_assoc.
    + by rewrite Hops2, Hops1, app_assoc.
    + apply Forall_app. split; [done|]. eapply Forall_impl; [done|].
      intros l (name & Hin & [[Hmv Hl]|[Hst Hl]]); exists name; (split; [done|]).
      * left. split; [|done]. eapply movable_mono; [|done]. intros ?. apply Hlock1.
      * right. split; [|done]. eapply stuck_mono; [|done]. intros ?. apply Hlock1.
    + apply Forall_app. split; [done|]. eapply Forall_impl; [done|].
      intros op [Hmk|(name & c & u & Hin & Hmv & Hc & Hcat & Hop)]; [by left|].
      right. exists name, c, u. split_and!; try done.
      eapply movable_mono; [|done]. intros locked. apply Hlock1.
Qed.

Lemma trace_step desktop_path items name s :
  name ∈ items →
  trace desktop_path items s (final (process_item desktop_path name s)).
Proof.
  intros Hin.
  destruct (process_item_cases desktop_path name s)
    as [[_ ->]|[(_ & _ & ->)|[(Hskip & Hfree & Hlock & ->)|(Hskip & Hfree & Hlock & ->)]]];
    simpl; [apply trace_refl..| |]; unfold trace, after_failure, after_move; simpl.
  - split_and!.
    + intros n locked. by rewrite lock_of_ensured.
    + intros n [?| ->]%names_ensured; [by left|right; apply get_category_in_names].
    + intros n _. apply names_ensured_incl.
    + eexists [_], _. split_and!; [done|done| |by apply ensure_log_confined].
      apply Forall_singleton. exists name. split; [done|]. right.
      split; [by apply stuck_spec|by eexists].
  - split_and!.
    + intros n locked. rewrite lock_of_add_child.
      destruct (decide (name = n)) as [->|Hne].
      * by rewrite lock_of_remove_eq.
      * by rewrite lock_of_remove_ne, lock_of_ensured.
    + intros n. rewrite names_add_child, names_remove_entry.
      intros [_ [?| ->]%names_ensured]%list_elem_of_filter;
        [by left|right; apply get_category_in_names].
    + intros n Hn Hnin. rewrite names_add_child, names_remove_entry.
      apply list_elem_of_filter. split; [congruence|by apply names_ensured_incl].
    + eexists [_], _. split_and!; [done|done| |].
      * apply Forall_singleton. exists name. split; [done|]. left.
        split; [by apply movable_spec|by eexists].
      * apply Forall_app. split; [by apply ensure_log_confined|].
        apply Forall_singleton. right. eexists name, _, _.
        split_and!; try done; [by apply movable_spec|apply get_category_in_names].
Qed.

Lemma for_each_trace desktop_path items s :
  trace desktop_path items s (final (for_each items (process_item desktop_path) s)).
Proof.
  apply (for_each_final (trace desktop_path items)).
  - apply trace_refl.
  - apply trace_trans.
  - intros name s0 Hin. by apply trace_step.
Qed.

(** ** The run as a whole *)

Lemma print_all_spec ls s :
  print_all ls s = Ok tt (mkState (fs s) (move_count s) (stdout s ++ ls) (mutations s)).
Proof.
  revert s. induction ls as [|l ls IH]; intros s; simpl.
  - unfold mret, M_ret, ret. rewrite app_nil_r. by destruct s.
  - unfold mbind, M_bind, bind, print. rewrite IH. simpl.
    by rewrite <-app_assoc.
Qed.

Lemma organize_desktop_unfold home d :
  organize_desktop home (Some d)
  = match for_each d.*1 (process_item (get_desktop_path home))
            (started (get_desktop_path home) d) with
    | Ok _ s => Ok tt (reported s)
    | Raised e s => Raised e s
    end.
Proof.
  unfold organize_desktop, mbind, M_bind, bind, print, get, initial, started. simpl.
  destruct (for_each _ _ _) as [[] s|e s]; [|done].
  rewrite print_all_spec. unfold reported. simpl. by rewrite <-!app_assoc.
Qed.

Lemma organize_desktop_missing home :
  organize_desktop home None
  = Ok tt (mkState [] ∅ [ErrorNotFound (get_desktop_path home)] []).
Proof. done. Qed.

(** C3, as the code has it. When the desktop directory does not exist, the
    run prints the error once and nothing else, changes nothing in the file
    system, and returns at once; it returns normally, so the process ends
    with status 0. *)
Theorem missing_desktop_reports_and_returns (home : path) :
  let r := organize_desktop home None in
  stdout (final r) = [ErrorNotFound (get_desktop_path home)] ∧
  mutations (final r) = [] ∧
  move_count (final r) = ∅ ∧
  world_after None r = None ∧
  returned r = true ∧
  main home None = 0.
Proof. unfold main. by rewrite organize_desktop_missing. Qed.

(** The exit status of the script run without a desktop directory is not
    non-zero. *)
Lemma missing_desktop_exit_status_is_zero :
  ¬ (main ["Users"; "ada"] None ≠ 0).
Proof. intros Hne. by apply Hne. Qed.

(** C10. Every mutation a run performs is confined to the desktop: it is the
    creation of [desktop/<category>] for one of the seven labels, or the move
    of an item of the snapshot, one that passed the filter, from
    [desktop/<name>] to [desktop/<category>/<unique name>]; no other name
    appears on the desktop than those it held and the category labels. This
    holds for every world, also for a run that an exception ends. *)
Theorem mutations_confined_to_desktop (home : path) (world : option desktop) :
  let desktop_path := get_desktop_path home in
  let r := organize_desktop home world in
  let d := default [] world in
  length category_names = 7 ∧
  (∀ op, op ∈ mutations (final r) →
     (∃ category, category ∈ category_names ∧
        op = Mkdir (desktop_path ++ [category])) ∨
     (∃ name category u,
        name ∈ d.*1 ∧ movable d name ∧ category ∈ category_names ∧
        op = Move (desktop_path ++ [name]) (desktop_path ++ [category; u]))) ∧
  (∀ name, name ∈ (fs (final r)).*1 → name ∈ d.*1 ∨ name ∈ category_names) ∧
  (world = None → mutations (final r) = [] ∧ fs (final r) = []).
Proof.
  intros desktop_path r d0. split; [done|].
  destruct world as [d|]; subst r d0.
  2:{ rewrite organize_desktop_missing. simpl. split_and!; [| |done].
      - intros op Hop. by apply elem_of_nil in Hop.
      - intros name Hin. by apply elem_of_nil in Hin. }
  rewrite organize_desktop_unfold. fold desktop_path. simpl.
  pose proof (for_each_trace desktop_path d.*1 (started desktop_path d))
    as (_ & Hnames & _ & extra & ops & _ & Hops & _ & Hconf).
  simpl in Hops, Hnames, Hconf.
  destruct (for_each _ _ _) as [[] s|e s]; simpl in *; subst ops;
    (split_and!; [|done..]); intros op Hop;
    (eapply Forall_forall in Hconf; [|done]);
    (destruct Hconf as [Hmk|(name & c & u & Hin & Hm & _ & Hc & ->)];
       [by left|right; by exists name, c, u]).
Qed.

(** ** The tally *)

Lemma moves_into_app category out1 out2 :
  moves_into category (out1 ++ out2)
  = moves_into category out1 + moves_into category out2.
Proof. unfold moves_into. by rewrite omap_app, filter_app, length_app. Qed.

Lemma moved_names_app out1 out2 :
  moved_names (out1 ++ out2) = moved_names out1 ++ moved_names out2.
Proof. apply omap_app. Qed.

Lemma failed_names_app out1 out2 :
  failed_names (out1 ++ out2) = failed_names out1 ++ failed_names out2.
Proof. apply omap_app. Qed.

Lemma total_files_insert_fresh (m : gmap string nat) category count :
  m !! category = None →
  total_files (<[category := count]> m) = count + total_files m.
Proof.
  intros Hnone. unfold total_files. by rewrite map_to_list_insert.
Qed.

Lemma total_files_lookup (m : gmap string nat) category count :
  m !! category = Some count →
  total_files m = count + total_files (delete category m).
Proof.
  intros Hsome. unfold total_files.
  by rewrite <-(map_to_list_delete m category count).
Qed.

(** [move_count[category] += 1] adds one to the sum of the counts. *)
Lemma total_files_count_move (m : gmap string nat) category :
  total_files (<[category := S (default 0 (m !! category))]> m) = S (total_files m).
Proof.
  destruct (m !! category) as [count|] eqn:Hc; simpl.
  - rewrite <-insert_delete_eq, total_files_insert_fresh; [|apply lookup_delete_eq].
    by rewrite (total_files_lookup m category count).
  - by rewrite total_files_insert_fresh.
Qed.

Lemma ensure_log_no_move desktop_path d category :
  omap move_source (ensure_log desktop_path d category) = [].
Proof. unfold ensure_log. by destruct (entry d category). Qed.

Lemma tally_ok_step desktop_path name s :
  tally_ok s → tally_ok (final (process_item desktop_path name s)).
Proof.
  intros (Hcount & Hpos & Htotal & Hmoves).
  destruct (process_item_cases desktop_path name s)
    as [[_ ->]|[(_ & _ & ->)|[(_ & _ & _ & ->)|(_ & _ & _ & ->)]]];
    simpl; [done|done| |]; unfold tally_ok, after_failure, after_move; simpl.
  - split_and!.
    + intros c. rewrite moves_into_app, Hcount. unfold moves_into. simpl. lia.
    + done.
    + rewrite moved_names_app, length_app, Htotal. simpl. lia.
    + rewrite omap_app, ensure_log_no_move, app_nil_r, moved_names_app, length_app.
      simpl. lia.
  - split_and!.
    + intros c. rewrite moves_into_app. unfold moves_into at 2. simpl.
      rewrite filter_cons. destruct (decide (get_category (suffix name) = c)) as [<-|Hne].
      * rewrite lookup_insert_eq. simpl. rewrite Hcount. lia.
      * rewrite lookup_insert_ne; [|done]. simpl. rewrite Hcount. lia.
    + intros c count. destruct (decide (get_category (suffix name) = c)) as [<-|Hne].
      * rewrite lookup_insert_eq. intros [= <-]. lia.
      * rewrite lookup_insert_ne; [|done]. apply Hpos.
    + rewrite total_files_count_move, moved_names_app, length_app, Htotal. simpl. lia.
    + rewrite !omap_app, ensure_log_no_move, moved_names_app, !length_app.
      simpl. lia.
Qed.

Lemma tally_ok_loop desktop_path items s :
  tally_ok s → tally_ok (final (for_each items (process_item desktop_path) s)).
Proof.
  apply (for_each_final (λ s s', tally_ok s → tally_ok s')); [done|by auto|].
  intros name s0 _. apply tally_ok_step.
Qed.

Lemma tally_ok_started desktop_path d : tally_ok (started desktop_path d).
Proof.
  split_and!; [|done..]. intros c. simpl. by rewrite lookup_empty.
Qed.

(** ** The summary *)

Lemma values_of_keys (m : gmap string nat) (l : list (string * nat)) :
  (∀ k v, (k, v) ∈ l → m !! k = Some v) →
  l.*2 = (λ k, default 0 (m !! k)) <$> l.*1.
Proof.
  induction l as [|[k v] l IH]; intros Hl; [done|].
  rewrite !fmap_cons. simpl. rewrite (Hl k v); [|apply list_elem_of_here]. simpl.
  f_equal. apply IH. intros k' v' Hin. apply Hl. by apply list_elem_of_further.
Qed.

Lemma sorted_keys_perm (m : gmap string nat) : sorted_keys m ≡ₚ (map_to_list m).*1.
Proof. apply merge_sort_Permutation. Qed.

Lemma sorted_keys_elem (m : gmap string nat) k : k ∈ sorted_keys m ↔ is_Some (m !! k).
Proof.
  rewrite sorted_keys_perm, list_elem_of_fmap. split.
  - intros ([k' v] & -> & Hin%elem_of_map_to_list). by exists v.
  - intros [v Hv]. exists (k, v). split; [done|]. by apply elem_of_map_to_list.
Qed.

Lemma sorted_keys_sorted (m : gmap string nat) :
  StronglySorted String.le (sorted_keys m) ∧ NoDup (sorted_keys m).
Proof.
  split.
  - apply (StronglySorted_merge_sort String.le).
  - rewrite sorted_keys_perm. apply NoDup_fst_map_to_list.
Qed.

Lemma total_files_sorted_keys (m : gmap string nat) :
  total_files m = sum_list ((λ k, default 0 (m !! k)) <$> sorted_keys m).
Proof.
  unfold total_files. rewrite sorted_keys_perm. f_equal. apply values_of_keys.
  intros k v. apply elem_of_map_to_list.
Qed.

(** C6. A run that reaches its summary has printed, after the header, one
    line for each file it tried to move, then the banner, then the report.
    The moves reported are as many as the moves performed. When there is none
    the report is the nothing-to-organize line; otherwise it lists exactly
    the categories into which at least one move is reported, in strictly
    increasing order of their names, each with the number of moves into it,
    and then a total that is the number of moves, which is the sum of the
    listed counts. *)
Theorem summary_reports_tally (home : path) (d : desktop) (s' : state) :
  organize_desktop home (Some d) = Ok tt s' →
  ∃ lines report,
    stdout s' = Organizing (get_desktop_path home) :: lines
                  ++ [RuleAfterBlank; SummaryTitle; Rule] ++ report ∧
    Forall (file_line d.*1 d) lines ∧
    let moves := length (moved_names lines) in
    moves = length (omap move_source (mutations s')) ∧
    (moves = 0 → report = [NothingMoved]) ∧
    (0 < moves →
       ∃ categories,
         report = ((λ c, CategoryCount c (moves_into c lines)) <$> categories)
                    ++ [TotalOrganized moves] ∧
         StronglySorted String.le categories ∧
         NoDup categories ∧
         (∀ c, c ∈ categories ↔ 0 < moves_into c lines) ∧
         moves = sum_list ((λ c, moves_into c lines) <$> categories)).
Proof.
  rewrite organize_desktop_unfold. set (desktop_path := get_desktop_path home).
  pose proof (for_each_trace desktop_path d.*1 (started desktop_path d))
    as (_ & _ & _ & lines & ops & Hout & _ & Hlines & _).
  pose proof (tally_ok_loop desktop_path d.*1 (started desktop_path d)
                (tally_ok_started desktop_path d)) as (Hcount & Hpos & Htotal & Hmoves).
  destruct (for_each _ _ _) as [[] s|e s]; [|done]. intros [= <-].
  simpl in Hout, Hcount, Hpos, Htotal, Hlines, Hmoves.
  rewrite Hout in Htotal, Hcount, Hmoves.
  change (moved_names (Organizing desktop_path :: lines))
    with (moved_names lines) in Htotal, Hmoves.
  assert (∀ c, default 0 (move_count s !! c) = moves_into c lines) as Hcount'.
  { intros c. by rewrite Hcount. }
  exists lines, (summary (move_count s)).
  split; [unfold reported; simpl; by rewrite Hout|]. split; [done|].
  intros moves. subst moves. split; [done|]. split.
  - intros Hzero. unfold summary. rewrite bool_decide_eq_true_2; [done|]. lia.
  - intros Hsome. exists (sorted_keys (move_count s)).
    destruct (sorted_keys_sorted (move_count s)) as [Hsorted Hnodup].
    split_and!; [|done|done| |].
    + unfold summary. rewrite bool_decide_eq_false_2; [|lia]. rewrite Htotal.
      f_equal. apply list_fmap_ext. intros _ c _. by rewrite Hcount'.
    + intros c. rewrite sorted_keys_elem, <-Hcount'. split.
      * intros [count Hc]. rewrite Hc. simpl. by eapply Hpos.
      * destruct (move_count s !! c); [by eexists|simpl; lia].
    + rewrite <-Htotal, total_files_sorted_keys. f_equal.
      apply list_fmap_ext. intros _ c _. apply Hcount'.
Qed.

(** ** The filter *)

Lemma summary_no_file_lines m :
  moved_names (summary m) = [] ∧ failed_names (summary m) = [].
Proof.
  unfold summary, moved_names, failed_names. case_bool_decide; [done|].
  rewrite !omap_app. simpl. rewrite !app_nil_r.
  split; by induction (sorted_keys m).
Qed.

Lemma reported_file_lines s :
  moved_names (stdout (reported s)) = moved_names (stdout s) ∧
  failed_names (stdout (reported s)) = failed_names (stdout s).
Proof.
  destruct (summary_no_file_lines (move_count s)) as [Hm Hf].
  unfold reported, moved_names, failed_names in *. cbn [stdout].
  rewrite !omap_app, Hm, Hf. simpl. by rewrite !app_nil_r.
Qed.



Lemma entry_after_move_folder desktop_path name s :
  free_or_dir (entry (fs s) (get_category (suffix name))) = true →
  is_Some (lock_of (fs s) name) →
  entry (fs (after_move desktop_path name s)) (get_category (suffix name))
  = Some (Dir ({[get_unique_filename
                   (children_of (fs s) (get_category (suffix name))) name]}
               ∪ children_of (fs s) (get_category (suffix name)))).
Proof.
  intros Hfree [locked Hlock]. unfold after_move. simpl.
  rewrite entry_add_child, entry_remove_ne, entry_ensured_folder; [|done|].
  - simpl. by rewrite bool_decide_eq_true_2.
  - intros Heq. rewrite Heq in Hlock. unfold lock_of in Hlock.
    by destruct (entry (fs s) (get_category (suffix name))) as [[]|].
Qed.


(** ** Files without an extension *)

(** C9, with the input at which it fails. The empty extension is in no
    configured list, so [get_category ""] is ["Others"], and a file whose
    name has no suffix is classified there. It is not always moved there: when
    the name [Others] is held on the desktop by something that is not a
    directory, the pass of the loop body over an eligible file without a
    suffix raises the [FileExistsError] of [mkdir] and leaves everything as
    it was. On the desktop that holds the regular files [README] and
    [Others], both without a suffix and both eligible, the run ends at
    [README] with that exception: nothing is moved, no [Others] folder
    exists, both files are still on the desktop, and the script exits with
    status 1. *)
Theorem file_without_suffix_blocked_by_Others (home : path) :
  let desktop_path := get_desktop_path home in
  get_category "" = "Others" ∧
  (∀ c exts, (c, exts) ∈ FILE_CATEGORIES → "" ∉ exts) ∧
  (∀ name s,
     suffix name = "" →
     skipped (fs s) name = false →
     free_or_dir (entry (fs s) "Others") = false →
     process_item desktop_path name s
     = Raised (FileExistsError (desktop_path ++ ["Others"])) s) ∧
  let d := [("README", File false); ("Others", File false)] in
  let r := organize_desktop home (Some d) in
  suffix "README" = "" ∧ suffix "Others" = "" ∧
  skipped d "README" = false ∧ skipped d "Others" = false ∧
  r = Raised (FileExistsError (desktop_path ++ ["Others"])) (started desktop_path d) ∧
  moved_names (stdout (final r)) = [] ∧
  fs (final r) = d ∧
  is_dir (entry (fs (final r)) "Others") = false ∧
  main home (Some d) = 1.
Proof.
  intros desktop_path.
  assert (get_category "" = "Others") as Hcat by (by vm_compute).
  assert (∀ name s,
            suffix name = "" →
            skipped (fs s) name = false →
            free_or_dir (entry (fs s) "Others") = false →
            process_item desktop_path name s
            = Raised (FileExistsError (desktop_path ++ ["Others"])) s) as Hblocked.
  { intros name s Hsuffix Hskip Hfree.
    pose proof (process_item_blocked desktop_path name s Hskip) as Hrun.
    rewrite Hsuffix, Hcat in Hrun. by apply Hrun. }
  split_and!; [done| |done|].
  - intros c exts Hin Hx.
    assert (first_category FILE_CATEGORIES "" = Some c) as Hc.
    { apply first_category_exclusive; [apply FILE_CATEGORIES_exclusive|].
      by exists exts. }
    by vm_compute in Hc.
  - intros d r. subst r.
    assert (organize_desktop home (Some d)
            = Raised (FileExistsError (desktop_path ++ ["Others"]))
                     (started desktop_path d)) as Hrun.
    { rewrite organize_desktop_unfold. fold desktop_path.
      change d.*1 with ["README"; "Others"].
      rewrite for_each_cons, Hblocked; [done|by vm_compute..]. }
    unfold main. rewrite Hrun. split_and!; by vm_compute.
Qed.

(** ** Runs that reach their end *)

Lemma movable_lock d d' name :
  lock_of d name = lock_of d' name → movable d name = movable d' name.
Proof. intros Heq. unfold movable. by rewrite (skipped_lock d d'), Heq. Qed.

Lemma stuck_lock d d' name :
  lock_of d name = lock_of d' name → stuck d name = stuck d' name.
Proof. intros Heq. unfold stuck. by rewrite (skipped_lock d d'), Heq. Qed.

Lemma movable_not_stuck d name : movable d name → ¬ stuck d name.
Proof. intros [_ Hm]%movable_spec [_ Hs]%stuck_spec. congruence. Qed.

Lemma filter_ext_elem {A} (P Q : A → Prop)
    `{∀ x, Decision (P x)} `{∀ x, Decision (Q x)} (l : list A) :
  (∀ x, x ∈ l → P x ↔ Q x) → filter P l = filter Q l.
Proof.
  induction l as [|x l IH]; intros Hl; [done|].
  rewrite !filter_cons.
  pose proof (Hl x (list_elem_of_here _ _)) as Hx.
  rewrite IH; [|intros y Hy; apply Hl; by apply list_elem_of_further].
  destruct (decide (P x)), (decide (Q x)); tauto.
Qed.

Lemma lock_of_after_move desktop_path name s n :
  lock_of (fs (after_move desktop_path name s)) n
  = if bool_decide (n = name) then None else lock_of (fs s) n.
Proof.
  unfold after_move. simpl. rewrite lock_of_add_child. case_bool_decide as Hn.
  - subst. apply lock_of_remove_eq.
  - rewrite lock_of_remove_ne; [|done]. apply lock_of_ensured.
Qed.

(** A loop that ran to its end: exactly the movable items have stopped being
    regular files of the desktop, every stuck item is reported as failed,
    and, the items being distinct, the moves reported are those of the
    movable items and the failures those of the stuck ones, both in the
    order of the items. *)
Lemma for_each_returned desktop_path items s s' :
  for_each items (process_item desktop_path) s = Ok tt s' →
  (∀ n, lock_of (fs s') n
        = if bool_decide (n ∈ items) && movable (fs s) n then None
          else lock_of (fs s) n) ∧
  (∀ n, n ∈ items → stuck (fs s) n → n ∈ failed_names (stdout s')) ∧
  (NoDup items →
     moved_names (stdout s')
       = moved_names (stdout s) ++ filter (movable (fs s)) items ∧
     failed_names (stdout s')
       = failed_names (stdout s) ++ filter (stuck (fs s)) items).
Proof.
  revert s. induction items as [|a rest IH]; intros s Hrun.
  { injection Hrun as <-. split_and!; [done| |].
    - intros n Hin. by apply elem_of_nil in Hin.
    - intros _. by rewrite !app_nil_r. }
  rewrite for_each_cons in Hrun.
  destruct (process_item_cases desktop_path a s)
    as [[Hskip Ha]|[(_ & _ & Ha)|[(Hskip & _ & Hlock & Ha)|(Hskip & _ & Hlock & Ha)]]];
    rewrite Ha in Hrun; [| done | |].
  - (* the item is skipped *)
    destruct (IH s Hrun) as (Hlocks & Hfailed & Hnames).
    assert (¬ movable (fs s) a) as Hma.
    { intros [? _]%movable_spec. congruence. }
    assert (¬ stuck (fs s) a) as Hsa.
    { intros [? _]%stuck_spec. congruence. }
    split_and!.
    + intros n. rewrite Hlocks. destruct (decide (n = a)) as [->|Hne].
      * apply Is_true_false in Hma. by rewrite Hma, !andb_false_r.
      * rewrite (bool_decide_ext (n ∈ a :: rest) (n ∈ rest)); [done|].
        rewrite elem_of_cons. tauto.
    + intros n [->|Hin]%elem_of_cons Hn; [done|by apply Hfailed].
    + intros [_ Hnd]%NoDup_cons. destruct (Hnames Hnd) as (-> & ->).
      by rewrite !filter_cons_False.
  - (* the move fails *)
    destruct (IH _ Hrun) as (Hlocks & Hfailed & Hnames).
    assert (∀ n, lock_of (fs (after_failure desktop_path a s)) n = lock_of (fs s) n)
      as Hsame by (intros n; apply lock_of_ensured).
    assert (stuck (fs s) a) as Hsa by (by apply stuck_spec).
    assert (¬ movable (fs s) a) as Hma.
    { intros [_ ?]%movable_spec. congruence. }
    split_and!.
    + intros n. rewrite Hlocks, Hsame, (movable_lock _ (fs s)); [|done].
      destruct (decide (n = a)) as [->|Hne].
      * apply Is_true_false in Hma. by rewrite Hma, !andb_false_r.
      * rewrite (bool_decide_ext (n ∈ a :: rest) (n ∈ rest)); [done|].
        rewrite elem_of_cons. tauto.
    + intros n [->|Hin]%elem_of_cons Hn.
      * pose proof (for_each_trace desktop_path rest (after_failure desktop_path a s))
          as (_ & _ & _ & extra & _ & Hout & _).
        rewrite Hrun in Hout. simpl in Hout.
        rewrite Hout, !failed_names_app, !elem_of_app. left. right.
        apply list_elem_of_here.
      * apply Hfailed; [done|]. by rewrite (stuck_lock _ (fs s)).
    + intros [_ Hnd]%NoDup_cons. destruct (Hnames Hnd) as (-> & ->).
      assert (filter (movable (fs (after_failure desktop_path a s))) rest
              = filter (movable (fs s)) rest) as ->.
      { apply filter_ext_elem. intros n _. by rewrite (movable_lock _ (fs s)). }
      assert (filter (stuck (fs (after_failure desktop_path a s))) rest
              = filter (stuck (fs s)) rest) as ->.
      { apply filter_ext_elem. intros n _. by rewrite (stuck_lock _ (fs s)). }
      rewrite filter_cons_False, filter_cons_True; [|done..].
      unfold after_failure. cbn [stdout].
      rewrite moved_names_app, failed_names_app.
      simpl. by rewrite !app_nil_r, <-app_assoc.
  - (* the move succeeds *)
    destruct (IH _ Hrun) as (Hlocks & Hfailed & Hnames).
    assert (movable (fs s) a) as Hma by (by apply movable_spec).
    assert (¬ stuck (fs s) a) as Hsa by (by apply movable_not_stuck).
    assert (∀ n, n ≠ a →
              lock_of (fs (after_move desktop_path a s)) n = lock_of (fs s) n) as Hsame.
    { intros n Hne. by rewrite lock_of_after_move, bool_decide_eq_false_2. }
    split_and!.
    + intros n. rewrite Hlocks. destruct (decide (n = a)) as [->|Hne].
      * rewrite lock_of_after_move, (bool_decide_eq_true_2 (a = a)); [|done].
        rewrite (bool_decide_eq_true_2 (a ∈ a :: rest)); [|apply list_elem_of_here].
        apply Is_true_true in Hma. rewrite Hma. simpl. by destruct (_ && _).
      * rewrite Hsame, (movable_lock _ (fs s)); [|by apply Hsame|done].
        rewrite (bool_decide_ext (n ∈ a :: rest) (n ∈ rest)); [done|].
        rewrite elem_of_cons. tauto.
    + intros n [->|Hin]%elem_of_cons Hn; [done|].
      apply Hfailed; [done|]. rewrite (stuck_lock _ (fs s)); [done|].
      apply Hsame. by intros ->.
    + intros [Ha' Hnd]%NoDup_cons. destruct (Hnames Hnd) as (-> & ->).
      assert (filter (movable (fs (after_move desktop_path a s))) rest
              = filter (movable (fs s)) rest) as ->.
      { apply filter_ext_elem. intros n Hn.
        rewrite (movable_lock _ (fs s)); [done|]. apply Hsame. by intros ->. }
      assert (filter (stuck (fs (after_move desktop_path a s))) rest
              = filter (stuck (fs s)) rest) as ->.
      { apply filter_ext_elem. intros n Hn.
        rewrite (stuck_lock _ (fs s)); [done|]. apply Hsame. by intros ->. }
      rewrite filter_cons_True, filter_cons_False; [|done..].
      unfold after_move. cbn [stdout].
      rewrite moved_names_app, failed_names_app.
      simpl. by rewrite !app_nil_r, <-!app_assoc.
Qed.

(** After a run that reached its end, no movable file is left. *)
Lemma nothing_movable_left desktop_path d s' :
  for_each d.*1 (process_item desktop_path) (started desktop_path d) = Ok tt s' →
  ∀ name, ¬ movable (fs s') name.
Proof.
  intros Hrun name Hm.
  destruct (for_each_returned desktop_path d.*1 _ s' Hrun) as (Hlocks & _).
  simpl in Hlocks.
  pose proof Hm as [_ Hlock]%movable_spec.
  pose proof (Hlocks name) as Hname. rewrite Hlock in Hname.
  destruct (bool_decide (name ∈ d.*1) && movable d name) eqn:Hb; [done|].
  rewrite (movable_lock _ d) in Hm; [|congruence].
  apply Is_true_true in Hm. rewrite Hm, andb_true_r in Hb.
  apply bool_decide_eq_false, entry_None in Hb.
  unfold lock_of in Hname. by rewrite Hb in Hname.
Qed.

Lemma eligible_cases d name :
  (skipped d name = false ∧ movable d name ∧ ¬ stuck d name) ∨
  (skipped d name = false ∧ stuck d name ∧ ¬ movable d name) ∨
  (skipped d name = true ∧ ¬ movable d name ∧ ¬ stuck d name).
Proof.
  rewrite movable_spec, stuck_spec.
  destruct (skipped d name) eqn:Hskip.
  { right. right. split_and!; [done|by intros [? _]..]. }
  apply skipped_false in Hskip as (Hfile & _). rewrite is_file_lock in Hfile.
  destruct (lock_of d name) as [[]|]; [| |done].
  - right. left. split_and!; [done..|]. by intros [_ ?].
  - left. split_and!; [done..|]. by intros [_ ?].
Qed.

(** The files that pass the filter are the movable ones and the stuck ones. *)
Lemma eligible_split d (l : list string) :
  length (filter (λ name, skipped d name = false) l)
  = length (filter (movable d) l) + length (filter (stuck d) l).
Proof.
  induction l as [|name l IH]; [done|]. rewrite !filter_cons.
  destruct (eligible_cases d name)
    as [(Hs & Hm & Hst)|[(Hs & Hst & Hm)|(Hs & Hm & Hst)]];
    destruct (decide (skipped d name = false)), (decide (movable d name)),
      (decide (stuck d name)); try done; try congruence; simpl; lia.
Qed.

Lemma reported_total s :
  0 < total_files (move_count s) →
  TotalOrganized (total_files (move_count s)) ∈ stdout (reported s).
Proof.
  intros Hpos. unfold reported, summary. simpl.
  rewrite bool_decide_eq_false_2; [|lia].
  apply elem_of_app. right. do 3 apply list_elem_of_further.
  apply elem_of_app. right. apply list_elem_of_here.
Qed.

Lemma reported_nothing s :
  total_files (move_count s) = 0 → NothingMoved ∈ stdout (reported s).
Proof.
  intros Hzero. unfold reported, summary. simpl.
  rewrite bool_decide_eq_true_2; [|done].
  apply elem_of_app. right. do 3 apply list_elem_of_further. apply list_elem_of_here.
Qed.

(** ** An entry whose folder cannot be created *)

(** C4, with the input at which it fails. A failure while an entry is
    processed is caught only when it happens in the move: the folder of the
    category is created before the [try] statement, so when the label of
    the category is held by something that is not a directory the
    [FileExistsError] of [mkdir] ends the loop at that entry, whatever
    entries follow. On the desktop that holds the regular files [a.txt] and
    [Others], both eligible, [a.txt] is moved and [Others] cannot be: the run
    ends there with the exception, the failure is reported by no error line,
    no total is printed, and the script exits with status 1. With the two
    files in the other order the run ends at once, and [a.txt], which
    follows, is never processed and stays where it was. *)
Theorem blocked_folder_is_not_isolated (home : path) :
  let desktop_path := get_desktop_path home in
  (∀ name rest s,
     skipped (fs s) name = false →
     free_or_dir (entry (fs s) (get_category (suffix name))) = false →
     for_each (name :: rest) (process_item desktop_path) s
     = Raised (FileExistsError (desktop_path ++ [get_category (suffix name)])) s) ∧
  let d := [("a.txt", File false); ("Others", File false)] in
  let r := organize_desktop home (Some d) in
  filter (λ name, skipped d name = false) d.*1 = ["a.txt"; "Others"] ∧
  r = Raised (FileExistsError (desktop_path ++ ["Others"]))
        (mkState [("Others", File false); ("Documents", Dir {[ "a.txt" ]})]
                 {[ "Documents" := 1 ]}
                 [Organizing desktop_path; Moved "a.txt" "Documents" "a.txt"]
                 [Mkdir (desktop_path ++ ["Documents"]);
                  Move (desktop_path ++ ["a.txt"])
                       (desktop_path ++ ["Documents"; "a.txt"])]) ∧
  moved_names (stdout (final r)) = ["a.txt"] ∧
  failed_names (stdout (final r)) = [] ∧
  (∀ total, TotalOrganized total ∉ stdout (final r)) ∧
  main home (Some d) = 1 ∧
  let d' := [("Others", File false); ("a.txt", File false)] in
  let r' := organize_desktop home (Some d') in
  r' = Raised (FileExistsError (desktop_path ++ ["Others"])) (started desktop_path d') ∧
  moved_names (stdout (final r')) = [] ∧
  failed_names (stdout (final r')) = [] ∧
  fs (final r') = d' ∧
  main home (Some d') = 1.
Proof.
  intros desktop_path. split.
  { intros name rest s Hskip Hblocked.
    by rewrite for_each_cons, process_item_blocked. }
  intros d r. subst r.
  assert (organize_desktop home (Some d)
          = Raised (FileExistsError (desktop_path ++ ["Others"]))
              (mkState [("Others", File false); ("Documents", Dir {[ "a.txt" ]})]
                 {[ "Documents" := 1 ]}
                 [Organizing desktop_path; Moved "a.txt" "Documents" "a.txt"]
                 [Mkdir (desktop_path ++ ["Documents"]);
                  Move (desktop_path ++ ["a.txt"])
                       (desktop_path ++ ["Documents"; "a.txt"])])) as Hrun
    by (by vm_compute).
  assert (organize_desktop home
            (Some [("Others", File false); ("a.txt", File false)])
          = Raised (FileExistsError (desktop_path ++ ["Others"]))
                   (started desktop_path
                      [("Others", File false); ("a.txt", File false)])) as Hrun'
    by (by vm_compute).
  unfold main. rewrite Hrun, Hrun'. cbn [final stdout exit_status].
  split_and!; try done.
  intros total Hin.
  repeat (apply elem_of_cons in Hin as [[=]|Hin]). by apply elem_of_nil in Hin.
Qed.

(** ** Running twice *)

(** C7, at the input where it fails. The desktop holds one regular file named
    [Others]. The first run classifies it as ["Others"], cannot create the
    folder of that name, and ends with an uncaught [FileExistsError] before
    any summary; the desktop is left as it was, so the second run ends the
    same way: it prints no nothing-to-organize line, and its process exits
    with status 1. *)
Theorem blocked_folder_ends_both_runs :
  let home := ["Users"; "ada"] in
  let d := [("Others", File false)] in
  let r1 := organize_desktop home (Some d) in
  let r2 := organize_desktop home (world_after (Some d) r1) in
  r1 = Raised (FileExistsError ["Users"; "ada"; "Desktop"; "Others"])
              (started ["Users"; "ada"; "Desktop"] d) ∧
  world_after (Some d) r1 = Some d ∧
  r2 = r1 ∧
  stdout (final r2) = [Organizing ["Users"; "ada"; "Desktop"]] ∧
  (NothingMoved ∉ stdout (final r2)) ∧
  returned r2 = false ∧
  main home (world_after (Some d) r1) = 1.
Proof.
  assert (organize_desktop ["Users"; "ada"] (Some [("Others", File false)])
          = Raised (FileExistsError ["Users"; "ada"; "Desktop"; "Others"])
                   (started ["Users"; "ada"; "Desktop"] [("Others", File false)]))
    as Hrun by (by vm_compute).
  intros home d r1 r2. subst r1 r2 home d. unfold world_after, main.
  rewrite !Hrun. cbn [fs final started]. rewrite !Hrun. simpl.
  split_and!; try done. intros Hin.
  apply list_elem_of_singleton in Hin. done.
Qed.

(** ** The functions at work *)

Example suffix_and_stem :
  suffix "photo.jpg" = ".jpg" ∧ stem "photo.jpg" = "photo" ∧
  suffix "a.tar.gz" = ".gz" ∧ stem "a.tar.gz" = "a.tar" ∧
  suffix "README" = "" ∧ stem "README" = "README" ∧
  suffix ".bashrc" = "" ∧ stem ".bashrc" = ".bashrc" ∧
  suffix "notes." = "" ∧ stem "notes." = "notes.".
Proof. by vm_compute. Qed.

Example get_category_samples :
  get_category ".PnG" = "Images" ∧ get_category ".pdf" = "PDFs" ∧
  get_category ".md" = "Documents" ∧ get_category ".MKV" = "Videos" ∧
  get_category ".flac" = "Music" ∧ get_category ".7z" = "Archives" ∧
  get_category ".xyz" = "Others" ∧ get_category "jpg" = "Others".
Proof. by vm_compute. Qed.

(** A file whose name is taken in its category folder gets the counter 1. *)
Example run_with_collision :
  let r := organize_desktop sample_home
             (Some [("photo.jpg", File false); ("Images", Dir {[ "photo.jpg" ]})]) in
  stdout (final r)
  = [ Organizing ["Users"; "ada"; "Desktop"];
      Moved "photo.jpg" "Images" "photo(1).jpg";
      RuleAfterBlank; SummaryTitle; Rule;
      CategoryCount "Images" 1; TotalOrganized 1 ] ∧
  mutations (final r)
  = [ Move ["Users"; "ada"; "Desktop"; "photo.jpg"]
           ["Users"; "ada"; "Desktop"; "Images"; "photo(1).jpg"] ] ∧
  (fs (final r)).*1 = ["Images"] ∧
  children_of (fs (final r)) "Images" = {[ "photo.jpg"; "photo(1).jpg" ]}.
Proof. by vm_compute. Qed.

(** An unknown extension goes to [Others], in a folder created for it. *)
Example run_with_unknown_extension :
  let r := organize_desktop sample_home (Some [("report.xyz", File false)]) in
  stdout (final r)
  = [ Organizing ["Users"; "ada"; "Desktop"];
      Moved "report.xyz" "Others" "report.xyz";
      RuleAfterBlank; SummaryTitle; Rule;
      CategoryCount "Others" 1; TotalOrganized 1 ] ∧
  mutations (final r)
  = [ Mkdir ["Users"; "ada"; "Desktop"; "Others"];
      Move ["Users"; "ada"; "Desktop"; "report.xyz"]
           ["Users"; "ada"; "Desktop"; "Others"; "report.xyz"] ] ∧
  children_of (fs (final r)) "Others" = {[ "report.xyz" ]}.
Proof. by vm_compute. Qed.

(** A desktop that holds only ignored entries. *)
Example run_with_nothing_to_do :
  let r := organize_desktop sample_home
             (Some [(".DS_Store", File false); ("Projects", Dir ∅)]) in
  stdout (final r)
  = [ Organizing ["Users"; "ada"; "Desktop"];
      RuleAfterBlank; SummaryTitle; Rule; NothingMoved ] ∧
  mutations (final r) = [] ∧ move_count (final r) = ∅.
Proof. by vm_compute. Qed.

(** The run on the sample desktop. *)
Example run_on_sample_desktop :
  stdout (final (organize_desktop sample_home (Some sample_desktop)))
  = [ Organizing ["Users"; "ada"; "Desktop"];
      Moved "photo.jpg" "Images" "photo(1).jpg";
      ErrorMoving "notes.txt" (PermissionError ["Users"; "ada"; "Desktop"; "notes.txt"]);
      Moved "README" "Others" "README";
      Moved "b.zip" "Archives" "b.zip";
      RuleAfterBlank; SummaryTitle; Rule;
      CategoryCount "Archives" 1; CategoryCount "Images" 1; CategoryCount "Others" 1;
      TotalOrganized 3 ].
Proof. by vm_compute. Qed.

(** ** The theorems at work on the sample desktop *)

Lemma sample_desktop_NoDup : NoDup sample_desktop.*1.
Proof. apply (bool_decide_unpack _). by vm_compute. Qed.

(** With [photo.jpg] and [photo(1).jpg] taken, the name given is
    [photo(2).jpg]. *)
Lemma get_unique_filename_sample :
  get_unique_filename {[ "photo.jpg"; "photo(1).jpg" ]} "photo.jpg"
  = candidate "photo" ".jpg" 2.
Proof.
  apply (get_unique_filename_correct {[ "photo.jpg"; "photo(1).jpg" ]} "photo.jpg").
  - lia.
  - apply (bool_decide_unpack _). by vm_compute.
  - intros j Hj. assert (j = 1) as -> by lia.
    apply (bool_decide_unpack _). by vm_compute.
  - apply (bool_decide_unpack _). by vm_compute.
Defined.

(** The run on the sample desktop reaches its summary. *)
Lemma summary_reports_tally_sample :
  ∃ lines report,
    stdout (final (organize_desktop sample_home (Some sample_desktop)))
      = Organizing (get_desktop_path sample_home) :: lines
          ++ [RuleAfterBlank; SummaryTitle; Rule] ++ report ∧
    Forall (file_line sample_desktop.*1 sample_desktop) lines ∧
    let moves := length (moved_names lines) in
    moves = length (omap move_source
                      (mutations (final (organize_desktop sample_home
                                           (Some sample_desktop))))) ∧
    (moves = 0 → report = [NothingMoved]) ∧
    (0 < moves →
       ∃ categories,
         report = ((λ c, CategoryCount c (moves_into c lines)) <$> categories)
                    ++ [TotalOrganized moves] ∧
         StronglySorted String.le categories ∧
         NoDup categories ∧
         (∀ c, c ∈ categories ↔ 0 < moves_into c lines) ∧
         moves = sum_list ((λ c, moves_into c lines) <$> categories)).
Proof.
  apply (summary_reports_tally sample_home sample_desktop). by vm_compute.
Defined.

(** * Further properties *)

(** ** Names, stems and suffixes *)

Lemma string_app_assoc (s t u : string) : (s +:+ t) +:+ u = s +:+ t +:+ u.
Proof.
  induction s as [|c s IH]; [done|].
  change (String c ((s +:+ t) +:+ u) = String c (s +:+ t +:+ u)). by rewrite IH.
Qed.

Lemma string_app_cons c (s t : string) : String c s +:+ t = String c (s +:+ t).
Proof. done. Qed.

Lemma rfind_dot_app (s t : string) :
  rfind_dot (s +:+ t)
  = match rfind_dot t with
    | Some i => Some (String.length s + i)
    | None => rfind_dot s
    end.
Proof.
  induction s as [|c s IH].
  - change ("" +:+ t) with t. by destruct (rfind_dot t).
  - rewrite string_app_cons. simpl. rewrite IH. by destruct (rfind_dot t).
Qed.

(** The last dot splits a name into what precedes it and a tail without dot. *)
Lemma rfind_dot_split name i :
  rfind_dot name = Some i →
  ∃ pre post, name = pre +:+ String "."%char post ∧
              String.length pre = i ∧ rfind_dot post = None.
Proof.
  revert i. induction name as [|c name IH]; intros i; simpl; [done|].
  destruct (rfind_dot name) as [j|] eqn:Hj.
  - intros [= <-]. destruct (IH j eq_refl) as (pre & post & -> & Hlen & Hpost).
    exists (String c pre), post. split_and!; [done| |done]. simpl. by rewrite Hlen.
  - destruct (Ascii.eqb c "."%char) eqn:Hc; [|done]. intros [= <-].
    apply Ascii.eqb_eq in Hc as ->. by exists "", name.
Qed.

Lemma substring_all (s : string) : String.substring 0 (String.length s) s = s.
Proof. induction s as [|c s IH]; simpl; [done|]. by rewrite IH. Qed.

Lemma substring_app_r (s t : string) :
  String.substring (String.length s) (String.length t) (s +:+ t) = t.
Proof.
  induction s as [|c s IH]; [apply substring_all|].
  rewrite string_app_cons. simpl. apply IH.
Qed.

Lemma substring_app_l (s t : string) :
  String.substring 0 (String.length s) (s +:+ t) = s.
Proof.
  induction s as [|c s IH].
  - simpl. by destruct ("" +:+ t).
  - rewrite string_app_cons. simpl. by rewrite IH.
Qed.

(** A dot followed by a non-empty tail without dot, put after a non-empty
    string, is the suffix of the whole, and the string is its stem. *)
Lemma suffix_stem_app (pre post : string) :
  pre ≠ "" → post ≠ "" → rfind_dot post = None →
  suffix (pre +:+ String "."%char post) = String "."%char post ∧
  stem (pre +:+ String "."%char post) = pre.
Proof.
  intros Hpre Hpost Hnone. unfold suffix, stem, splits_at.
  rewrite rfind_dot_app. simpl rfind_dot. rewrite Hnone. simpl.
  rewrite string_length_app. simpl.
  assert (0 < String.length pre) as Hl1 by (destruct pre; [done|simpl; lia]).
  assert (0 < String.length post) as Hl2 by (destruct post; [done|simpl; lia]).
  rewrite Nat.add_0_r.
  assert ((0 <? String.length pre) = true) as -> by (apply Nat.ltb_lt; lia).
  assert ((S (String.length pre) <? String.length pre + S (String.length post)) = true)
    as -> by (apply Nat.ltb_lt; lia).
  simpl. split; [|apply substring_app_l].
  replace (String.length pre + S (String.length post) - String.length pre)
    with (String.length (String "."%char post)) by (simpl; lia).
  apply substring_app_r.
Qed.

(** What [suffix] and [stem] make of a name: nothing is cut off, or the name
    is cut at its last dot, which is neither its first nor its last
    character. *)
Lemma suffix_stem_cases name :
  (suffix name = "" ∧ stem name = name) ∨
  (∃ pre post, name = pre +:+ String "."%char post ∧
               pre ≠ "" ∧ post ≠ "" ∧ rfind_dot post = None ∧
               suffix name = String "."%char post ∧ stem name = pre).
Proof.
  destruct (rfind_dot name) as [i|] eqn:Hi.
  2:{ left. unfold suffix, stem. by rewrite Hi. }
  destruct (rfind_dot_split name i Hi) as (pre & post & -> & Hlen & Hpost).
  destruct (decide (pre = "")) as [->|Hpre].
  { left. unfold suffix, stem, splits_at. rewrite Hi. simpl in Hlen. by subst i. }
  destruct (decide (post = "")) as [->|Hpost'].
  { left. unfold suffix, stem, splits_at. rewrite Hi, string_length_app. simpl.
    assert ((S i <? String.length pre + 1) = false) as ->.
    { apply Nat.ltb_ge. lia. }
    by rewrite andb_false_r. }
  right. exists pre, post.
  destruct (suffix_stem_app pre post) as [? ?]; done.
Qed.

Lemma last_char_app (s t : string) :
  last_char (s +:+ t)
  = match last_char t with
    | Some c => Some c
    | None => last_char s
    end.
Proof.
  induction s as [|c s IH].
  - change ("" +:+ t) with t. by destruct (last_char t).
  - rewrite string_app_cons. simpl. rewrite IH.
    by destruct (last_char t), (last_char s).
Qed.

Lemma last_char_None (s : string) : last_char s = None ↔ s = "".
Proof.
  destruct s as [|c s]; simpl; [done|]. by destruct (last_char s).
Qed.

Lemma last_char_lower (s : string) : last_char (lower s) = lower_ascii <$> last_char s.
Proof.
  induction s as [|c s IH]; simpl; [done|]. rewrite IH. by destruct (last_char s).
Qed.

(** A non-empty suffix ends as the name does. *)
Lemma last_char_suffix name : suffix name ≠ "" → last_char (suffix name) = last_char name.
Proof.
  destruct (suffix_stem_cases name)
    as [[-> _]|(pre & post & -> & _ & Hpost & _ & -> & _)]; [done|].
  intros _. rewrite last_char_app.
  destruct (last_char (String "."%char post)) eqn:Hl; [done|].
  by apply last_char_None in Hl.
Qed.

Lemma no_extension_ends_with_paren :
  Forall (λ x, last_char x ≠ Some ")"%char) (mjoin FILE_CATEGORIES.*2).
Proof. apply (bool_decide_unpack _). by vm_compute. Qed.

(** An extension that ends with a closing parenthesis is in no list. *)
Lemma get_category_paren (e : string) :
  last_char e = Some ")"%char → get_category e = "Others".
Proof.
  intros Hlast. unfold get_category, get_category_in.
  assert (first_category FILE_CATEGORIES (lower e) = None) as ->; [|done].
  apply first_category_none. intros c (exts & Hin & Hx).
  pose proof no_extension_ends_with_paren as Hall.
  eapply Forall_forall in Hall.
  - apply Hall. rewrite last_char_lower, Hlast. done.
  - apply list_elem_of_join. exists exts. split; [done|].
    apply list_elem_of_fmap. by exists (c, exts).
Qed.

Lemma candidate_app name_stem extension counter :
  candidate name_stem extension counter
  = (name_stem +:+ "(" +:+ pretty counter +:+ ")") +:+ extension.
Proof. unfold candidate. by rewrite !string_app_assoc. Qed.

(** The candidates of a name have the category of the name, and its suffix
    when it has one. *)
Lemma candidate_suffix name counter :
  get_category (suffix (candidate (stem name) (suffix name) counter))
  = get_category (suffix name) ∧
  (suffix name ≠ "" →
   suffix (candidate (stem name) (suffix name) counter) = suffix name).
Proof.
  destruct (suffix_stem_cases name)
    as [[Hsuf Hstem]|(pre & post & Hname & Hpre & Hpost & Hnone & Hsuf & Hstem)].
  - rewrite Hsuf, Hstem. split; [|done].
    destruct (decide (suffix (candidate name "" counter) = "")) as [->|Hne]; [done|].
    rewrite get_category_paren; [done|].
    rewrite (last_char_suffix _ Hne). unfold candidate. by rewrite !last_char_app.
  - rewrite Hsuf, Hstem, candidate_app.
    destruct (suffix_stem_app (pre +:+ "(" +:+ pretty counter +:+ ")") post)
      as [-> _]; [|done..].
    intros Heq. apply (f_equal String.length) in Heq.
    rewrite !string_length_app in Heq. simpl in Heq. lia.
Qed.

(** The name chosen for a file has the category of the proposed name, so a
    renamed file belongs to the folder it is moved into; when the proposed
    name has an extension, the chosen name has the same extension. *)
Theorem get_unique_filename_keeps_category (target_dir : gset string) (filename : string) :
  let unique_filename := get_unique_filename target_dir filename in
  get_category (suffix unique_filename) = get_category (suffix filename) ∧
  (suffix filename ≠ "" → suffix unique_filename = suffix filename) ∧
  (unique_filename = filename ↔ filename ∉ target_dir).
Proof.
  intros unique_filename. subst unique_filename.
  destruct (decide (filename ∈ target_dir)) as [Hin|Hout].
  - destruct (get_unique_filename_taken _ _ Hin) as (k & _ & Heq & Hfree & _).
    rewrite Heq. destruct (candidate_suffix filename k) as [Hcat Hsuf].
    split_and!; [done|done|]. split; [|done]. intros Hk. rewrite Hk in Hfree. done.
  - rewrite get_unique_filename_free; done.
Qed.

(** ** Case of the letters *)

Lemma lower_ascii_dot c : Ascii.eqb (lower_ascii c) "."%char = Ascii.eqb c "."%char.
Proof. by destruct c as [[] [] [] [] [] [] [] []]. Qed.

Lemma lower_ascii_idemp c : lower_ascii (lower_ascii c) = lower_ascii c.
Proof. by destruct c as [[] [] [] [] [] [] [] []]. Qed.

Lemma lower_idemp s : lower (lower s) = lower s.
Proof. induction s as [|c s IH]; simpl; [done|]. by rewrite lower_ascii_idemp, IH. Qed.

Lemma length_lower s : String.length (lower s) = String.length s.
Proof. induction s as [|c s IH]; simpl; [done|]. by rewrite IH. Qed.

Lemma rfind_dot_lower s : rfind_dot (lower s) = rfind_dot s.
Proof.
  induction s as [|c s IH]; simpl; [done|]. by rewrite IH, lower_ascii_dot.
Qed.

Lemma substring_lower n m s :
  String.substring n m (lower s) = lower (String.substring n m s).
Proof.
  revert n m. induction s as [|c s IH]; intros [|n] [|m]; simpl; try done.
  by rewrite IH.
Qed.

Lemma suffix_lower s : suffix (lower s) = lower (suffix s).
Proof.
  unfold suffix, splits_at. rewrite rfind_dot_lower, length_lower.
  destruct (rfind_dot s) as [i|]; [|done].
  destruct (_ && _); [|done]. apply substring_lower.
Qed.

(** The category of a file depends on its name only up to the case of the
    letters, and so does the test for a leading dot. *)
Theorem classification_ignores_case (name name' : string) :
  lower name = lower name' →
  get_category (suffix name) = get_category (suffix name') ∧
  startswith_dot name = startswith_dot name'.
Proof.
  intros Heq. split.
  - unfold get_category, get_category_in.
    by rewrite <-!suffix_lower, Heq.
  - destruct name as [|c name], name' as [|c' name']; simpl in *; try done.
    injection Heq as Hc _. by rewrite <-(lower_ascii_dot c), Hc, lower_ascii_dot.
Qed.

Lemma classification_ignores_case_sample :
  get_category (suffix "PHOTO.JPG") = get_category (suffix "photo.jpg") ∧
  startswith_dot "PHOTO.JPG" = startswith_dot "photo.jpg".
Proof. apply classification_ignores_case. by vm_compute. Defined.

(** ** What a pass of the loop body keeps *)

Lemma entry_ensured_ne d category folder :
  folder ≠ category → entry (ensured d category) folder = entry d folder.
Proof.
  intros Hne. unfold ensured. destruct (entry d category); [done|].
  rewrite entry_app. destruct (entry d folder); [done|]. simpl.
  by rewrite bool_decide_eq_false_2.
Qed.

Lemma children_of_ensured d category folder :
  children_of (ensured d category) folder = children_of d folder.
Proof.
  unfold children_of. destruct (decide (folder = category)) as [->|Hne].
  - unfold ensured. destruct (entry d category) eqn:Hc; [by rewrite Hc|].
    rewrite entry_app, Hc. simpl. by rewrite bool_decide_eq_true_2.
  - by rewrite entry_ensured_ne.
Qed.

Lemma is_dir_free o : is_dir o = true → free_or_dir o = true.
Proof. by destruct o as [[]|]. Qed.

Lemma is_dir_ensured d category folder :
  is_dir (entry d folder) = true → is_dir (entry (ensured d category) folder) = true.
Proof.
  unfold ensured. destruct (entry d category); [done|].
  rewrite entry_app. by destruct (entry d folder).
Qed.

Lemma is_dir_lock d name : is_dir (entry d name) = true → lock_of d name = None.
Proof. unfold lock_of. by destruct (entry d name) as [[]|]. Qed.

Lemma is_dir_after_move desktop_path name s folder :
  is_Some (lock_of (fs s) name) →
  is_dir (entry (fs s) folder) = true →
  is_dir (entry (fs (after_move desktop_path name s)) folder) = true.
Proof.
  intros [locked Hlock] Hdir. unfold after_move. simpl.
  rewrite entry_add_child, entry_remove_ne.
  - apply (is_dir_ensured _ (get_category (suffix name))) in Hdir.
    destruct (entry (ensured _ _) folder) as [[]|]; simpl in *; try done.
    by case_bool_decide.
  - intros ->. apply is_dir_lock in Hdir. congruence.
Qed.

(** The names under the folders after a move: the folder of the category
    has gained the new name, and nothing else has changed. *)
Lemma children_of_after_move desktop_path name s folder :
  free_or_dir (entry (fs s) (get_category (suffix name))) = true →
  is_Some (lock_of (fs s) name) →
  children_of (fs (after_move desktop_path name s)) folder
  = if bool_decide (folder = get_category (suffix name))
    then {[get_unique_filename
             (children_of (fs s) (get_category (suffix name))) name]}
         ∪ children_of (fs s) folder
    else children_of (fs s) folder.
Proof.
  intros Hfree Hlock. case_bool_decide as Hf.
  - subst folder. unfold children_of at 1.
    by rewrite (entry_after_move_folder desktop_path name s Hfree Hlock).
  - unfold children_of, after_move. simpl. rewrite entry_add_child.
    destruct (decide (name = folder)) as [<-|Hne].
    + rewrite entry_remove_eq. simpl. destruct Hlock as [locked Hlock].
      unfold lock_of in Hlock. by destruct (entry (fs s) name) as [[]|].
    + rewrite entry_remove_ne, entry_ensured_ne; [|done..].
      destruct (entry (fs s) folder); simpl; [|done].
      by rewrite bool_decide_eq_false_2.
Qed.

Lemma kept_refl s : kept s s.
Proof.
  split_and!; [done|done|by left| |done]. exists []. by rewrite app_nil_r.
Qed.

Lemma kept_trans s1 s2 s3 : kept s1 s2 → kept s2 s3 → kept s1 s3.
Proof.
  intros (Hsub1 & Hlock1 & Hstay1 & [extra1 Hout1] & Hdel1)
         (Hsub2 & Hlock2 & Hstay2 & [extra2 Hout2] & Hdel2).
  split_and!.
  - intros folder. etrans; [apply Hsub1|apply Hsub2].
  - intros name Hn. by apply Hlock2, Hlock1.
  - intros name [Hin|Hin]%Hstay1; [by apply Hstay2|].
    right. rewrite Hout2, moved_names_app, elem_of_app. by left.
  - exists (extra1 ++ extra2). by rewrite Hout2, Hout1, app_assoc.
  - intros Hd. by apply Hdel2, Hdel1.
Qed.

Lemma kept_step desktop_path name s :
  kept s (final (process_item desktop_path name s)).
Proof.
  destruct (process_item_cases desktop_path name s)
    as [[_ ->]|[(_ & _ & ->)|[(Hskip & Hfree & Hlock & ->)|(Hskip & Hfree & Hlock & ->)]]];
    simpl; [apply kept_refl..| |].
  - (* the move fails *)
    unfold kept, after_failure. simpl. split_and!.
    + intros folder. by rewrite children_of_ensured.
    + intros n. by rewrite lock_of_ensured.
    + intros n Hn. left. by apply names_ensured_incl.
    + by eexists.
    + intros Hd. apply Forall_app. split; [|by apply Forall_singleton].
      eapply Forall_impl; [done|]. intros [] ; simpl; try done.
      by rewrite children_of_ensured, lock_of_ensured.
  - (* the move succeeds *)
    assert (is_Some (lock_of (fs s) name)) as Hsome by (by eexists).
    pose proof (λ folder, children_of_after_move desktop_path name s folder
                            Hfree Hsome) as Hch.
    pose proof (lock_of_after_move desktop_path name s) as Hlk.
    assert (stdout (after_move desktop_path name s)
            = stdout s ++ [Moved name (get_category (suffix name))
                             (get_unique_filename
                                (children_of (fs s) (get_category (suffix name)))
                                name)]) as Hout by done.
    assert (∀ n, n ≠ name → n ∈ (fs s).*1 →
                 n ∈ (fs (after_move desktop_path name s)).*1) as Hnames.
    { intros n Hne Hn. unfold after_move. simpl.
      rewrite names_add_child, names_remove_entry.
      apply list_elem_of_filter. split; [done|]. by apply names_ensured_incl. }
    set (s1 := after_move desktop_path name s) in *. clearbody s1.
    unfold kept, delivered. rewrite Hout. split_and!.
    + intros folder. rewrite Hch. case_bool_decide; [|done].
      apply union_subseteq_r.
    + intros n Hn. rewrite Hlk. by case_bool_decide.
    + intros n Hn. destruct (decide (n = name)) as [->|Hne].
      * right. rewrite moved_names_app, elem_of_app. right. apply list_elem_of_here.
      * left. by apply Hnames.
    + by eexists.
    + intros Hd. apply Forall_app. split.
      * eapply Forall_impl; [done|]. intros [] ; simpl; try done.
        intros [Hu Hl]. split.
        -- rewrite Hch. case_bool_decide; [|done].
           apply elem_of_union. by right.
        -- rewrite Hlk. by case_bool_decide.
      * apply Forall_singleton. simpl. split.
        -- rewrite Hch, bool_decide_eq_true_2; [|done].
           apply elem_of_union. left. by apply elem_of_singleton.
        -- by rewrite Hlk, bool_decide_eq_true_2.
Qed.

Lemma for_each_kept desktop_path items s :
  kept s (final (for_each items (process_item desktop_path) s)).
Proof.
  apply (for_each_final kept); [apply kept_refl|apply kept_trans|].
  intros name s0 _. apply kept_step.
Qed.

(** ** What a run keeps *)

Lemma summary_not_moved m name category u : Moved name category u ∉ summary m.
Proof.
  unfold summary. case_bool_decide.
  - intros Hin. apply list_elem_of_singleton in Hin. done.
  - rewrite elem_of_app, list_elem_of_fmap, list_elem_of_singleton.
    intros [(c & [=] & _)|[=]].
Qed.

Lemma reported_moved s name category u :
  Moved name category u ∈ stdout (reported s) → Moved name category u ∈ stdout s.
Proof.
  unfold reported. cbn [stdout]. rewrite !elem_of_app.
  intros [?|[Hin|Hin]]; [done| |by apply summary_not_moved in Hin].
  repeat (apply elem_of_cons in Hin as [[=]|Hin]). by apply elem_of_nil in Hin.
Qed.

(** What the lines that report a move say, after the loop: the name is that
    of a movable item of the snapshot, the category is that of the name, the
    new name is found under the folder, and the old one is no regular file
    of the desktop any more. *)
Lemma moved_lines_delivered desktop_path d s name category u :
  final (for_each d.*1 (process_item desktop_path) (started desktop_path d)) = s →
  Moved name category u ∈ stdout s →
  name ∈ d.*1 ∧ movable d name ∧ category = get_category (suffix name) ∧
  u ∈ children_of (fs s) category ∧ lock_of (fs s) name = None.
Proof.
  intros <- Hin.
  pose proof (for_each_kept desktop_path d.*1 (started desktop_path d))
    as (_ & _ & _ & _ & Hdel).
  pose proof (for_each_trace desktop_path d.*1 (started desktop_path d))
    as (_ & _ & _ & lines & ops & Hout & _ & Hlines & _).
  assert (delivered (started desktop_path d)) as Hd0.
  { unfold delivered. simpl. by apply Forall_singleton. }
  specialize (Hdel Hd0). clear Hd0.
  pose proof Hin as Hin'. rewrite Hout in Hin'. simpl in Hin'.
  apply elem_of_cons in Hin' as [[=]|Hin'].
  eapply Forall_forall in Hlines; [|done].
  destruct Hlines as (n & Hn & [[Hm [u' [= -> -> ->]]]|[_ [e [=]]]]).
  eapply Forall_forall in Hdel; [|done]. simpl in Hdel. by destruct Hdel.
Qed.

(** Nothing is lost: over any run, every entry of the snapshot is still on
    the desktop or is reported as moved; and every file reported as moved
    was a movable entry of the snapshot, is reported under the category of
    its name, is found under that folder with the name reported, and is no
    regular file of the desktop any more. *)
Theorem moved_files_arrive (home : path) (d : desktop) :
  let r := organize_desktop home (Some d) in
  (∀ name, name ∈ d.*1 →
           name ∈ (fs (final r)).*1 ∨ name ∈ moved_names (stdout (final r))) ∧
  (∀ name category u,
     Moved name category u ∈ stdout (final r) →
     name ∈ d.*1 ∧ movable d name ∧ category = get_category (suffix name) ∧
     u ∈ children_of (fs (final r)) category ∧
     lock_of (fs (final r)) name = None).
Proof.
  intros r. subst r. rewrite organize_desktop_unfold.
  set (desktop_path := get_desktop_path home).
  pose proof (for_each_kept desktop_path d.*1 (started desktop_path d))
    as (_ & _ & Hstay & _ & _).
  pose proof (moved_lines_delivered desktop_path d) as Hmoved.
  destruct (for_each _ _ _) as [[] s|e s]; simpl in Hstay; cbn [final] in Hmoved |- *.
  - destruct (reported_file_lines s) as [-> _]. change (fs (reported s)) with (fs s).
    split; [done|]. intros name category u Hin%reported_moved. by eapply Hmoved.
  - split; [done|]. intros name category u Hin. by eapply Hmoved.
Qed.

(** ** Runs that leave the desktop as it is *)

Lemma ensured_dir d category :
  is_dir (entry d category) = true →
  ensured d category = d ∧ ∀ desktop_path, ensure_log desktop_path d category = [].
Proof. unfold ensured, ensure_log. by destruct (entry d category). Qed.

(** Where every item is rejected by the filter, or is stuck with the folder
    of its category in place, the loop only prints the error lines of the
    stuck items. *)
Lemma for_each_quiet desktop_path items s :
  (∀ name, name ∈ items →
     skipped (fs s) name = true ∨
     (stuck (fs s) name ∧ is_dir (entry (fs s) (get_category (suffix name))) = true)) →
  for_each items (process_item desktop_path) s
  = Ok tt (mkState (fs s) (move_count s)
             (stdout s ++ (stuck_line desktop_path <$> filter (stuck (fs s)) items))
             (mutations s)).
Proof.
  revert s. induction items as [|a rest IH]; intros s Hitems.
  { simpl. rewrite app_nil_r. by destruct s. }
  rewrite for_each_cons.
  destruct (Hitems a (list_elem_of_here _ _)) as [Hskip|[Hstuck Hdir]].
  - rewrite process_item_skipped; [|done]. rewrite IH.
    + rewrite filter_cons_False; [done|]. intros [? _]%stuck_spec. congruence.
    + intros name Hin. apply Hitems. by apply list_elem_of_further.
  - pose proof Hstuck as [Hskip Hlock]%stuck_spec.
    rewrite process_item_failure; [|done|by apply is_dir_free|done].
    unfold after_failure. destruct (ensured_dir _ _ Hdir) as [-> ->].
    rewrite app_nil_r, IH; simpl.
    + rewrite filter_cons_True; [|done]. by rewrite <-app_assoc.
    + intros name Hin. apply Hitems. by apply list_elem_of_further.
Qed.

(** The run on a desktop where the filter rejects every entry. *)
Lemma organize_desktop_all_skipped home d :
  (∀ name, name ∈ d.*1 → skipped d name = true) →
  organize_desktop home (Some d)
  = Ok tt (mkState d ∅
             [Organizing (get_desktop_path home);
              RuleAfterBlank; SummaryTitle; Rule; NothingMoved]
             []).
Proof.
  intros Hall.
  assert (∀ l : list string, (∀ n, n ∈ l → skipped d n = true) →
            filter (stuck d) l = []) as Hnone.
  { induction l as [|n l IH]; intros Hl; [done|].
    rewrite filter_cons_False.
    - apply IH. intros n' Hn'. apply Hl. by apply list_elem_of_further.
    - intros [Hs _]%stuck_spec. rewrite Hl in Hs; [done|apply list_elem_of_here]. }
  rewrite organize_desktop_unfold, for_each_quiet.
  - simpl. by rewrite (Hnone _ Hall).
  - intros name Hin. left. by apply Hall.
Qed.

(** Nothing to organize: on a desktop where the filter rejects every entry,
    the empty desktop among them, the run returns, prints the header, the
    banner and the nothing-to-organize line, creates no folder, moves
    nothing and leaves the desktop as it is. *)
Theorem nothing_eligible_nothing_done (home : path) (d : desktop) :
  (∀ name, name ∈ d.*1 → skipped d name = true) →
  organize_desktop home (Some d)
  = Ok tt (mkState d ∅
             [Organizing (get_desktop_path home);
              RuleAfterBlank; SummaryTitle; Rule; NothingMoved]
             []) ∧
  main home (Some d) = 0.
Proof.
  intros Hall. pose proof (organize_desktop_all_skipped home d Hall) as Hrun.
  split; [done|]. unfold main. by rewrite Hrun.
Qed.

Lemma is_dir_step desktop_path name s folder :
  is_dir (entry (fs s) folder) = true →
  is_dir (entry (fs (final (process_item desktop_path name s))) folder) = true.
Proof.
  intros Hdir.
  destruct (process_item_cases desktop_path name s)
    as [[_ ->]|[(_ & _ & ->)|[(_ & _ & _ & ->)|(_ & _ & Hlock & ->)]]];
    simpl; [done|done| |].
  - by apply is_dir_ensured.
  - apply (is_dir_after_move desktop_path); [by eexists|done].
Qed.

Lemma is_dir_loop desktop_path items s folder :
  is_dir (entry (fs s) folder) = true →
  is_dir (entry (fs (final (for_each items (process_item desktop_path) s))) folder)
  = true.
Proof.
  apply (for_each_final
           (λ s s', is_dir (entry (fs s) folder) = true →
                    is_dir (entry (fs s') folder) = true)); [done|by auto|].
  intros name s0 _. apply is_dir_step.
Qed.

(** A loop that ran to its end has left, for every item that was stuck, the
    folder of its category in place. *)
Lemma for_each_housed desktop_path items s s' :
  for_each items (process_item desktop_path) s = Ok tt s' →
  ∀ name, name ∈ items → stuck (fs s) name →
          is_dir (entry (fs s') (get_category (suffix name))) = true.
Proof.
  revert s. induction items as [|a rest IH]; intros s Hrun name Hin Hstuck.
  { by apply elem_of_nil in Hin. }
  rewrite for_each_cons in Hrun.
  destruct (process_item_cases desktop_path a s)
    as [[Hskip Ha]|[(_ & _ & Ha)|[(_ & Hfree & Hlock & Ha)|(Hskip & _ & Hlock & Ha)]]];
    rewrite Ha in Hrun; [| done | |].
  - apply elem_of_cons in Hin as [->|Hin]; [|by eapply IH].
    apply stuck_spec in Hstuck as [? _]. congruence.
  - assert (stuck (fs (after_failure desktop_path a s)) name) as Hstuck'.
    { rewrite (stuck_lock _ (fs s)); [done|]. apply lock_of_ensured. }
    apply elem_of_cons in Hin as [->|Hin]; [|by eapply IH].
    pose proof (is_dir_loop desktop_path rest (after_failure desktop_path a s)
                  (get_category (suffix a))) as Hdir.
    rewrite Hrun in Hdir. apply Hdir. simpl. by rewrite entry_ensured_folder.
  - apply elem_of_cons in Hin as [->|Hin].
    { apply stuck_spec in Hstuck as [_ ?]. congruence. }
    eapply IH; [done..|].
    rewrite (stuck_lock _ (fs s)); [done|].
    rewrite lock_of_after_move, bool_decide_eq_false_2; [done|].
    intros ->. apply stuck_spec in Hstuck as [_ ?]. congruence.
Qed.

Lemma nothing_eligible_sample :
  main sample_home (Some [(".DS_Store", File false); ("Projects", Dir ∅);
                          ("desktop.ini", File true); (".hidden.txt", File false)])
  = 0.
Proof.
  apply (nothing_eligible_nothing_done sample_home).
  intros name Hin. repeat (apply elem_of_cons in Hin as [->|Hin]; [by vm_compute|]).
  by apply elem_of_nil in Hin.
Defined.

(** ** The folders a run creates *)

Lemma built_refl desktop_path items s : built desktop_path items s s.
Proof.
  split_and!; [done|done|]. exists []. rewrite app_nil_r.
  split_and!; [done|constructor|]. intros p Hin. by apply elem_of_nil in Hin.
Qed.

Lemma built_trans desktop_path items s1 s2 s3 :
  built desktop_path items s1 s2 → built desktop_path items s2 s3 →
  built desktop_path items s1 s3.
Proof.
  intros (Hlock1 & Hdir1 & ops1 & Hops1 & Hnd1 & Hmade1)
         (Hlock2 & Hdir2 & ops2 & Hops2 & Hnd2 & Hmade2).
  split_and!.
  - intros name locked Hl. by apply Hlock1, Hlock2.
  - intros folder Hd. by apply Hdir2, Hdir1.
  - exists (ops1 ++ ops2). rewrite omap_app. split_and!.
    + by rewrite Hops2, Hops1, app_assoc.
    + apply NoDup_app. split_and!; [done| |done].
      intros p (n1 & _ & _ & -> & _ & Hyes)%Hmade1 (n2 & _ & _ & Heq & Hno & _)%Hmade2.
      apply app_inv_head in Heq as [= Hcat]. rewrite Hcat in Hyes. congruence.
    + intros p [Hin|Hin]%elem_of_app.
      * destruct (Hmade1 p Hin) as (name & Hn & Hskip & -> & Hno & Hyes).
        exists name. split_and!; try done. by apply Hdir2.
      * destruct (Hmade2 p Hin) as (name & Hn & Hskip & -> & Hno & Hyes).
        exists name. split_and!; try done.
        -- eapply skipped_false_mono; [|done]. intros locked. apply Hlock1.
        -- destruct (is_dir (entry (fs s1) (get_category (suffix name)))) eqn:Hd;
             [|done]. apply Hdir1 in Hd. congruence.
Qed.

Lemma built_step desktop_path items name s :
  name ∈ items →
  built desktop_path items s (final (process_item desktop_path name s)).
Proof.
  intros Hin.
  pose proof (trace_step desktop_path items name s Hin) as (Hmono & _).
  pose proof (λ folder, is_dir_step desktop_path name s folder) as Hdirs.
  assert (∀ (ops' : list fsop) (s' : state),
            omap mkdir_path ops' = [] →
            is_dir (entry (fs s') (get_category (suffix name))) = true →
            skipped (fs s) name = false →
            NoDup (omap mkdir_path
                     (ensure_log desktop_path (fs s) (get_category (suffix name))
                        ++ ops')) ∧
            ∀ p, p ∈ omap mkdir_path
                       (ensure_log desktop_path (fs s) (get_category (suffix name))
                          ++ ops') →
              ∃ name0, name0 ∈ items ∧ skipped (fs s) name0 = false ∧
                p = desktop_path ++ [get_category (suffix name0)] ∧
                is_dir (entry (fs s) (get_category (suffix name0))) = false ∧
                is_dir (entry (fs s') (get_category (suffix name0))) = true) as Hlog.
  { intros ops' s' Hnone Hyes Hskip. rewrite omap_app, Hnone, app_nil_r.
    unfold ensure_log.
    destruct (entry (fs s) (get_category (suffix name))) eqn:Hc; simpl.
    - split; [constructor|]. intros p Hp. by apply elem_of_nil in Hp.
    - split; [apply NoDup_singleton|]. intros p ->%list_elem_of_singleton.
      exists name. split_and!; try done. by rewrite Hc. }
  split_and!; [done|done|].
  destruct (process_item_cases desktop_path name s)
    as [[_ Hc]|[(_ & _ & Hc)|[(Hskip & Hfree & _ & Hc)|(Hskip & Hfree & Hlock & Hc)]]];
    rewrite Hc; simpl final.
  - exists []. rewrite app_nil_r. split_and!; [done|constructor|].
    intros p Hp. by apply elem_of_nil in Hp.
  - exists []. rewrite app_nil_r. split_and!; [done|constructor|].
    intros p Hp. by apply elem_of_nil in Hp.
  - exists (ensure_log desktop_path (fs s) (get_category (suffix name)) ++ []).
    split; [by rewrite app_nil_r|]. apply Hlog; [done| |done].
    simpl. by rewrite entry_ensured_folder.
  - eexists (ensure_log desktop_path (fs s) (get_category (suffix name)) ++ [_]).
    split; [done|]. apply Hlog; [done| |done].
    rewrite (entry_after_move_folder desktop_path name s); [done|done|by eexists].
Qed.

Lemma for_each_built desktop_path items s :
  built desktop_path items s (final (for_each items (process_item desktop_path) s)).
Proof.
  apply (for_each_final (built desktop_path items)).
  - apply built_refl.
  - apply built_trans.
  - intros name s0 Hin. by apply built_step.
Qed.

(** The folders of a run: no folder is created twice, at most seven are
    created, each one is the folder of the category of an entry of the
    snapshot that passed the filter, at a label that no directory held when
    the run began, and it is there at the end; and every directory of the
    desktop is still a directory at the end. *)
Theorem folders_are_created_once (home : path) (d : desktop) :
  let desktop_path := get_desktop_path home in
  let r := organize_desktop home (Some d) in
  let made := omap mkdir_path (mutations (final r)) in
  NoDup made ∧
  length made ≤ 7 ∧
  (∀ p, p ∈ made →
     ∃ name, name ∈ d.*1 ∧ skipped d name = false ∧
             p = desktop_path ++ [get_category (suffix name)] ∧
             is_dir (entry d (get_category (suffix name))) = false ∧
             is_dir (entry (fs (final r)) (get_category (suffix name))) = true) ∧
  (∀ folder, is_dir (entry d folder) = true →
             is_dir (entry (fs (final r)) folder) = true).
Proof.
  intros desktop_path r made. subst r made. rewrite organize_desktop_unfold.
  fold desktop_path.
  pose proof (for_each_built desktop_path d.*1 (started desktop_path d))
    as (_ & Hdirs & ops & Hops & Hnd & Hmade).
  assert (∀ s, final (for_each d.*1 (process_item desktop_path)
                        (started desktop_path d)) = s →
               NoDup (omap mkdir_path (mutations s)) ∧
               length (omap mkdir_path (mutations s)) ≤ 7 ∧
               (∀ p, p ∈ omap mkdir_path (mutations s) →
                  ∃ name, name ∈ d.*1 ∧ skipped d name = false ∧
                    p = desktop_path ++ [get_category (suffix name)] ∧
                    is_dir (entry d (get_category (suffix name))) = false ∧
                    is_dir (entry (fs s) (get_category (suffix name))) = true) ∧
               (∀ folder, is_dir (entry d folder) = true →
                          is_dir (entry (fs s) folder) = true)) as Hall.
  { intros s <-. rewrite Hops. simpl. split_and!; [done| |done|done].
    change 7 with (length ((λ c, desktop_path ++ [c]) <$> category_names)).
    apply submseteq_length, NoDup_submseteq; [done|].
    intros p (name & _ & _ & -> & _)%Hmade.
    apply list_elem_of_fmap. eexists. split; [done|]. apply get_category_in_names. }
  destruct (for_each _ _ _) as [[] s|e s]; simpl final.
  - change (mutations (reported s)) with (mutations s).
    change (fs (reported s)) with (fs s). by apply Hall.
  - by apply Hall.
Qed.

(** ** Where the moves land *)

Lemma ensure_log_no_target desktop_path d category :
  omap move_target (ensure_log desktop_path d category) = [].
Proof. unfold ensure_log. by destruct (entry d category). Qed.

Lemma landed_refl desktop_path s : landed desktop_path s s.
Proof.
  split; [done|]. exists []. rewrite app_nil_r.
  split_and!; [done|constructor|]. intros q Hin. by apply elem_of_nil in Hin.
Qed.

Lemma landed_trans desktop_path s1 s2 s3 :
  landed desktop_path s1 s2 → landed desktop_path s2 s3 → landed desktop_path s1 s3.
Proof.
  intros (Hsub1 & ops1 & Hops1 & Hnd1 & Hnew1) (Hsub2 & ops2 & Hops2 & Hnd2 & Hnew2).
  split.
  { intros folder. etrans; [apply Hsub1|apply Hsub2]. }
  exists (ops1 ++ ops2). rewrite omap_app. split_and!.
  - by rewrite Hops2, Hops1, app_assoc.
  - apply NoDup_app. split_and!; [done| |done].
    intros q (c1 & u1 & _ & -> & _ & Hin1)%Hnew1 (c2 & u2 & _ & Heq & Hout2 & _)%Hnew2.
    apply app_inv_head in Heq as [= -> ->]. done.
  - intros q [Hin|Hin]%elem_of_app.
    + destruct (Hnew1 q Hin) as (c & u & Hc & -> & Hout & Hin').
      exists c, u. split_and!; [done..|]. by apply Hsub2.
    + destruct (Hnew2 q Hin) as (c & u & Hc & -> & Hout & Hin').
      exists c, u. split_and!; [done..| |done].
      intros Hu. apply Hout. by apply Hsub1.
Qed.

Lemma landed_step desktop_path name s :
  landed desktop_path s (final (process_item desktop_path name s)).
Proof.
  pose proof (kept_step desktop_path name s) as (Hsub & _).
  split; [done|]. clear Hsub.
  destruct (process_item_cases desktop_path name s)
    as [[_ ->]|[(_ & _ & ->)|[(_ & _ & _ & ->)|(_ & Hfree & Hlock & ->)]]];
    cbn [final].
  - exists []. rewrite app_nil_r. split_and!; [done|constructor|].
    intros q Hin. by apply elem_of_nil in Hin.
  - exists []. rewrite app_nil_r. split_and!; [done|constructor|].
    intros q Hin. by apply elem_of_nil in Hin.
  - eexists. split; [done|]. rewrite ensure_log_no_target.
    split; [constructor|]. intros q Hin. by apply elem_of_nil in Hin.
  - eexists. split; [done|]. rewrite omap_app, ensure_log_no_target. simpl.
    split; [apply NoDup_singleton|]. intros q ->%list_elem_of_singleton.
    eexists _, _. split_and!; [apply get_category_in_names|done| |].
    + apply get_unique_filename_fresh.
    + rewrite (children_of_after_move desktop_path name s); [|done|by eexists].
      rewrite bool_decide_eq_true_2; [|done].
      apply elem_of_union. left. by apply elem_of_singleton.
Qed.

Lemma for_each_landed desktop_path items s :
  landed desktop_path s (final (for_each items (process_item desktop_path) s)).
Proof.
  apply (for_each_final (landed desktop_path)).
  - apply landed_refl.
  - apply landed_trans.
  - intros name s0 _. apply landed_step.
Qed.

(** Where the moves of a run land, whether the run reaches its end or not:
    the names found under a folder of the desktop before the run are found
    there afterwards; no two moves have the same destination; and each
    destination is [desktop/<category>/<u>] for one of the seven labels and
    a name [u] that was not found under that folder before the run and is
    found there afterwards. *)
Theorem moves_land_on_new_names (home : path) (d : desktop) :
  let desktop_path := get_desktop_path home in
  let r := organize_desktop home (Some d) in
  let targets := omap move_target (mutations (final r)) in
  (∀ folder, children_of d folder ⊆ children_of (fs (final r)) folder) ∧
  NoDup targets ∧
  (∀ q, q ∈ targets →
     ∃ category u, category ∈ category_names ∧
                   q = desktop_path ++ [category; u] ∧
                   (u ∉ children_of d category) ∧
                   u ∈ children_of (fs (final r)) category).
Proof.
  intros desktop_path r targets. subst r targets. rewrite organize_desktop_unfold.
  fold desktop_path.
  pose proof (for_each_landed desktop_path d.*1 (started desktop_path d))
    as (Hsub & ops & Hops & Hnd & Hnew).
  assert (∀ s, final (for_each d.*1 (process_item desktop_path)
                        (started desktop_path d)) = s →
               (∀ folder, children_of d folder ⊆ children_of (fs s) folder) ∧
               NoDup (omap move_target (mutations s)) ∧
               (∀ q, q ∈ omap move_target (mutations s) →
                  ∃ category u, category ∈ category_names ∧
                    q = desktop_path ++ [category; u] ∧
                    (u ∉ children_of d category) ∧
                    u ∈ children_of (fs s) category)) as Hall.
  { intros s <-. rewrite Hops. by split_and!. }
  destruct (for_each _ _ _) as [[] s|e s]; cbn [final].
  - change (mutations (reported s)) with (mutations s).
    change (fs (reported s)) with (fs s). by apply Hall.
  - by apply Hall.
Qed.

(** ** Runs that reach their end, and the run after *)

(** A file that is stuck after the loop was an item of the snapshot and was
    stuck before. *)
Lemma stuck_after_loop desktop_path d name :
  stuck (fs (final (for_each d.*1 (process_item desktop_path)
                      (started desktop_path d)))) name →
  name ∈ d.*1 ∧ stuck d name.
Proof.
  pose proof (for_each_trace desktop_path d.*1 (started desktop_path d))
    as (Hmono & _).
  intros Hs. assert (stuck d name) as Hd.
  { eapply stuck_mono; [|done]. intros locked. apply Hmono. }
  split; [|done]. apply stuck_spec in Hd as [_ Hl].
  destruct (decide (name ∈ d.*1)) as [|Hout]; [done|].
  apply entry_None in Hout. unfold lock_of in Hl. by rewrite Hout in Hl.
Qed.

(** The files that pass the filter are the movable ones and the stuck ones. *)
Lemma eligible_perm d (l : list string) :
  filter (movable d) l ++ filter (stuck d) l
  ≡ₚ filter (λ name, skipped d name = false) l.
Proof.
  induction l as [|name l IH]; [done|]. rewrite !filter_cons.
  destruct (eligible_cases d name)
    as [(Hs & Hm & Hst)|[(Hs & Hst & Hm)|(Hs & Hm & Hst)]];
    destruct (decide (skipped d name = false)), (decide (movable d name)),
      (decide (stuck d name)); try done; try congruence.
  - simpl. by rewrite IH.
  - by rewrite <-Permutation_middle, IH.
Qed.

Lemma stuck_lines_report desktop_path (l : list string) :
  moved_names (stuck_line desktop_path <$> l) = [] ∧
  failed_names (stuck_line desktop_path <$> l) = l.
Proof.
  induction l as [|name l [IHm IHf]]; [done|].
  split; [done|]. cbn. by rewrite <-IHf at 2.
Qed.

(** A run that reached its end without an error line has left nothing to
    do: every entry of the desktop it leaves is rejected by the filter, so
    the run that follows leaves the desktop exactly as it found it, creates
    no folder, attempts no move, prints the header, the banner and the
    nothing-to-organize line, and the script exits with status 0. *)
Theorem clean_run_leaves_nothing_to_do (home : path) (d : desktop) (s1 : state) :
  organize_desktop home (Some d) = Ok tt s1 →
  failed_names (stdout s1) = [] →
  (∀ name, name ∈ (fs s1).*1 → skipped (fs s1) name = true) ∧
  organize_desktop home (Some (fs s1))
  = Ok tt (mkState (fs s1) ∅
             [Organizing (get_desktop_path home);
              RuleAfterBlank; SummaryTitle; Rule; NothingMoved]
             []) ∧
  main home (Some (fs s1)) = 0.
Proof.
  rewrite organize_desktop_unfold. set (desktop_path := get_desktop_path home).
  pose proof (stuck_after_loop desktop_path d) as Hstuck.
  destruct (for_each _ _ _) as [[] s|e s] eqn:Hrun; [|done].
  intros [= <-] Hclean. cbn [final] in Hstuck.
  destruct (reported_file_lines s) as [_ Hrf]. rewrite Hrf in Hclean.
  change (fs (reported s)) with (fs s).
  pose proof (nothing_movable_left desktop_path d s Hrun) as Hleft.
  destruct (for_each_returned desktop_path d.*1 _ s Hrun) as (_ & Hfailed & _).
  assert (∀ name, name ∈ (fs s).*1 → skipped (fs s) name = true) as Hall.
  { intros name _.
    destruct (eligible_cases (fs s) name)
      as [(_ & Hm & _)|[(_ & Hs & _)|(Hskip & _)]];
      [by destruct (Hleft name)| |done].
    destruct (Hstuck name Hs) as [Hin Hd].
    specialize (Hfailed name Hin Hd). rewrite Hclean in Hfailed.
    by apply elem_of_nil in Hfailed. }
  pose proof (organize_desktop_all_skipped home (fs s) Hall) as Hrun2.
  split_and!; [done|done|]. unfold main. by rewrite Hrun2.
Qed.

(** Idempotence of a second run: when the first run reaches its end, so does
    the run that follows, which finds the folders it needs in place; it
    reports no move, performs none and counts none, and prints, after the
    header, error lines only, each about a file that the first run already
    failed to move, then the banner and the nothing-to-organize line. *)
Theorem second_run_moves_nothing (home : path) (d : desktop) :
  returned (organize_desktop home (Some d)) = true →
  let r1 := organize_desktop home (Some d) in
  let r2 := organize_desktop home (world_after (Some d) r1) in
  returned r2 = true ∧
  moved_names (stdout (final r2)) = [] ∧
  omap move_source (mutations (final r2)) = [] ∧
  move_count (final r2) = ∅ ∧
  ∃ lines,
    stdout (final r2)
      = Organizing (get_desktop_path home) :: lines
          ++ [RuleAfterBlank; SummaryTitle; Rule; NothingMoved] ∧
    Forall (λ l, ∃ name e, l = ErrorMoving name e ∧
                           name ∈ failed_names (stdout (final r1))) lines.
Proof.
  intros Hret r1 r2. subst r1 r2. unfold world_after. revert Hret.
  rewrite (organize_desktop_unfold home d). set (desktop_path := get_desktop_path home).
  pose proof (stuck_after_loop desktop_path d) as Hstuck.
  destruct (for_each _ _ _) as [[] s1|e s1] eqn:Hrun1; [|done].
  intros _. cbn [final] in Hstuck |- *.
  destruct (reported_file_lines s1) as [_ Hrf]. rewrite Hrf.
  change (fs (reported s1)) with (fs s1).
  pose proof (nothing_movable_left desktop_path d s1 Hrun1) as Hleft.
  pose proof (for_each_housed desktop_path d.*1 _ s1 Hrun1) as Hhoused.
  destruct (for_each_returned desktop_path d.*1 _ s1 Hrun1) as (_ & Hfailed & _).
  cbn [fs started] in Hhoused, Hfailed.
  assert (organize_desktop home (Some (fs s1))
          = Ok tt (mkState (fs s1) ∅
                     ([Organizing desktop_path]
                        ++ (stuck_line desktop_path <$> filter (stuck (fs s1)) (fs s1).*1)
                        ++ [RuleAfterBlank; SummaryTitle; Rule; NothingMoved])
                     [])) as Hrun2.
  { rewrite organize_desktop_unfold. fold desktop_path. rewrite for_each_quiet.
    - unfold reported. simpl. done.
    - intros name Hin. simpl.
      destruct (eligible_cases (fs s1) name)
        as [(_ & Hm & _)|[(_ & Hs & _)|(Hskip & _)]];
        [by destruct (Hleft name)| |by left].
      right. split; [done|]. destruct (Hstuck name Hs) as [Hin' Hd].
      by apply Hhoused. }
  rewrite Hrun2. cbn [final returned stdout mutations move_count].
  destruct (stuck_lines_report desktop_path (filter (stuck (fs s1)) (fs s1).*1))
    as [Hnone _].
  split_and!; [done| |done|done|].
  - rewrite !moved_names_app, Hnone. done.
  - eexists. split; [done|]. apply Forall_fmap, Forall_forall.
    intros name [Hs _]%list_elem_of_filter. eexists _, _. split; [done|].
    destruct (Hstuck name Hs) as [Hin Hd]. by apply Hfailed.
Qed.

(** Failed moves are isolated, in the runs that reach their end. Where the
    folder of its category is in place, a pass of the loop body over an
    eligible file that cannot be moved returns: the loop goes on with the
    entries that follow, the only line added is an error line about the
    file, the tally is as it was and the file is still on the desktop. And
    when a run on a desktop of distinct names reaches its end, every file
    that passed the filter is reported exactly once, as moved or as failed,
    and nothing else is; each file reported as moved is under the folder of
    its category, under the name reported, and has left the desktop; each
    file reported as failed is still there; the total counts the moved ones;
    so when exactly one of the N files that pass the filter fails, N-1 are
    moved and the total reported is N-1. *)
Theorem failed_moves_are_isolated (home : path) :
  let desktop_path := get_desktop_path home in
  (∀ name rest s,
     skipped (fs s) name = false →
     is_dir (entry (fs s) (get_category (suffix name))) = true →
     lock_of (fs s) name = Some true →
     ∃ s1 e,
       process_item desktop_path name s = Ok tt s1 ∧
       for_each (name :: rest) (process_item desktop_path) s
         = for_each rest (process_item desktop_path) s1 ∧
       stdout s1 = stdout s ++ [ErrorMoving name e] ∧
       move_count s1 = move_count s ∧
       is_file (fs s1) name = true) ∧
  (∀ d s',
     NoDup d.*1 →
     organize_desktop home (Some d) = Ok tt s' →
     let eligible := filter (λ name, skipped d name = false) d.*1 in
     let moved := moved_names (stdout s') in
     let failed := failed_names (stdout s') in
     moved = filter (movable d) d.*1 ∧
     failed = filter (stuck d) d.*1 ∧
     moved ++ failed ≡ₚ eligible ∧
     total_files (move_count s') = length eligible - length failed ∧
     (∀ name, name ∈ moved →
        ∃ u, Moved name (get_category (suffix name)) u ∈ stdout s' ∧
             u ∈ children_of (fs s') (get_category (suffix name)) ∧
             is_file (fs s') name = false) ∧
     (∀ name, name ∈ failed → is_file (fs s') name = true) ∧
     (length failed = 1 →
        ∀ N, length eligible = N →
             length moved = N - 1 ∧
             total_files (move_count s') = N - 1 ∧
             (1 < N → TotalOrganized (N - 1) ∈ stdout s') ∧
             (N = 1 → NothingMoved ∈ stdout s'))).
Proof.
  intros desktop_path. split.
  - intros name rest s Hskip Hdir Hlock.
    pose proof (process_item_failure desktop_path name s Hskip
                  (is_dir_free _ Hdir) Hlock) as Hrun.
    eexists (after_failure desktop_path name s), _.
    split_and!; [done| |done|done|].
    + by rewrite for_each_cons, Hrun.
    + unfold after_failure. simpl. by rewrite is_file_lock, lock_of_ensured, Hlock.
  - intros d s' Hnodup. rewrite organize_desktop_unfold. fold desktop_path.
    pose proof (moved_lines_delivered desktop_path d) as Hdel.
    pose proof (tally_ok_loop desktop_path d.*1 (started desktop_path d)
                  (tally_ok_started desktop_path d)) as (_ & _ & Htotal & _).
    destruct (for_each _ _ _) as [[] s|e s] eqn:Hrun; [|done].
    intros [= <-]. cbn [final] in Hdel, Htotal.
    destruct (for_each_returned desktop_path d.*1 _ s Hrun) as (Hlocks & _ & Hnames).
    destruct (Hnames Hnodup) as (Hmoved & Hfailed).
    cbn [fs stdout started] in Hlocks, Hmoved, Hfailed.
    change (moved_names [Organizing desktop_path]) with (@nil string) in Hmoved.
    change (failed_names [Organizing desktop_path]) with (@nil string) in Hfailed.
    rewrite app_nil_l in Hmoved, Hfailed.
    destruct (reported_file_lines s) as [Hrm Hrf].
    intros eligible moved failed. subst eligible moved failed.
    rewrite Hrm, Hrf. change (move_count (reported s)) with (move_count s).
    change (fs (reported s)) with (fs s).
    pose proof (eligible_split d d.*1) as Hsplit.
    rewrite Htotal, Hmoved, Hfailed.
    split_and!; [done|done|apply eligible_perm|lia| | |].
    + intros name Hin.
      assert (name ∈ moved_names (stdout s)) as Hin' by (by rewrite Hmoved).
      apply list_elem_of_omap in Hin' as (l & Hl & Hname).
      destruct l; try done. injection Hname as ->.
      destruct (Hdel _ _ _ _ eq_refl Hl) as (_ & _ & -> & Hu & Hgone).
      eexists. split_and!; [|done|by rewrite is_file_lock, Hgone].
      unfold reported. cbn [stdout]. apply elem_of_app. by left.
    + intros name [Hs Hin]%list_elem_of_filter.
      pose proof Hs as [_ Hlock]%stuck_spec.
      rewrite is_file_lock, Hlocks.
      assert (movable d name = false) as ->.
      { apply Is_true_false. intros Hm. by apply (movable_not_stuck d name). }
      by rewrite andb_false_r, Hlock.
    + intros Hone N HN. rewrite Hone in Hsplit.
      assert (total_files (move_count s) = N - 1) as Htotal'.
      { rewrite Htotal, Hmoved. lia. }
      split_and!; [lia|lia| |].
      * intros HN1. rewrite <-Htotal'. apply reported_total. lia.
      * intros ->. apply reported_nothing. lia.
Qed.

(** ** The further theorems at work *)

(** The second run on the sample desktop finds only the locked file. *)
Lemma second_run_moves_nothing_sample :
  let r1 := organize_desktop sample_home (Some sample_desktop) in
  let r2 := organize_desktop sample_home (world_after (Some sample_desktop) r1) in
  moved_names (stdout (final r2)) = [] ∧ NothingMoved ∈ stdout (final r2).
Proof.
  destruct (second_run_moves_nothing sample_home sample_desktop)
    as (_ & Hmoved & _ & _ & lines & Hout & _); [by vm_compute|].
  split; [done|]. rewrite Hout.
  apply list_elem_of_further, elem_of_app. right.
  do 3 apply list_elem_of_further. apply list_elem_of_here.
Defined.

(** A run that moves its one eligible file leaves nothing to the next. *)
Lemma clean_run_sample :
  let d := [("photo.jpg", File false); (".DS_Store", File false)] in
  let s1 := final (organize_desktop sample_home (Some d)) in
  main sample_home (Some (fs s1)) = 0.
Proof.
  intros d s1.
  assert (organize_desktop sample_home (Some d) = Ok tt s1) as Hrun
    by (by vm_compute).
  assert (failed_names (stdout s1) = []) as Hclean by (by vm_compute).
  exact (proj2 (proj2 (clean_run_leaves_nothing_to_do sample_home d s1 Hrun Hclean))).
Defined.

(** One of the four eligible files of the sample desktop is stuck: three
    are moved and the total reported is three. *)
Lemma failed_moves_are_isolated_sample :
  let s' := final (organize_desktop sample_home (Some sample_desktop)) in
  moved_names (stdout s') = ["photo.jpg"; "README"; "b.zip"] ∧
  failed_names (stdout s') = ["notes.txt"] ∧
  total_files (move_count s') = 3 ∧
  TotalOrganized 3 ∈ stdout s'.
Proof.
  intros s'.
  destruct (proj2 (failed_moves_are_isolated sample_home) sample_desktop s'
              sample_desktop_NoDup)
    as (Hmoved & Hfailed & _ & _ & _ & _ & HN); [by vm_compute|].
  destruct HN with (N := 4) as (_ & Htotal & Hline & _);
    [by rewrite Hfailed|by vm_compute|].
  split_and!.
  - rewrite Hmoved. by vm_compute.
  - rewrite Hfailed. by vm_compute.
  - done.
  - apply Hline. lia.
Defined.
